(** * airem: the transaction orchestrator of [src/txn.ts]

    A shallow embedding of the [Transaction] class: the builder methods
    [step], [steps], [onStep] and the [run] method with its per-step retry
    loop and its reverse-order rollback.

    Every user-supplied callback (a step's [execute] and [rollback], the
    three step events, the global rollback, the logger) is a JavaScript
    closure: it may read and change the state it closes over, and it either
    returns or throws.  It is therefore modelled as a function from a world
    [W] to a new world and an outcome.  [run] awaits each call before it
    makes the next one, so the calls happen one after the other.

    Next to the world, a computation yields the list of calls it has made
    to its environment, in the order it made them; the theorems about
    ordering are stated over this list.

    The logger is a callback like the others and may throw; a throw of the
    logger propagates like any other.  The theorems that go through calls
    of the logger assume that it returns ([quiet_logger]). *)

From Stdlib Require Import List String ZArith Bool Arith Lia.
Import ListNotations.
Open Scope string_scope.

Set Implicit Arguments.

(** The result of a call: a returned value or a thrown error. *)
Inductive outcome (E A : Type) : Type :=
| Ret (a : A)
| Throw (e : E).
Arguments Ret {E A} a.
Arguments Throw {E A} e.

Section Txn.

(** [W]: the state the callbacks close over; [Ctx]: the values of type
    [any] handed from step to step; [Err]: the values that are thrown. *)
Context {W Ctx Err : Type}.

(** The value of [let context: any = undefined]. *)
Variable undefined : Ctx.

(** ** Data model *)

Definition Callback (A : Type) : Type := W -> W * outcome Err A.

(** [type StepFunction = (ctx) => NextCtx | Promise<NextCtx>] *)
Definition StepFunction : Type := Ctx -> Callback Ctx.

(** [type RollbackFunction = (ctx, error) => void | Promise<void>] *)
Definition RollbackFunction : Type := Ctx -> Err -> Callback unit.

(** [interface StepEvents] *)
Record StepEvents : Type := {
  onStart : option (string -> Ctx -> Callback unit);
  onSuccess : option (string -> Ctx -> Ctx -> Callback unit);
  onError : option (string -> Ctx -> Err -> Callback unit)
}.

(** [retry?: { attempts: number; delayMs: number }], the numbers taken to
    be integers: fractional values, [NaN] and the infinities are outside
    this embedding. *)
Record Retry : Type := {
  attempts : Z;
  delayMs : Z
}.

(** [interface TransactionStep] *)
Record TransactionStep : Type := {
  name : string;
  execute : StepFunction;
  rollback : option RollbackFunction;
  retry : option Retry
}.

(** The second argument of the logger: [{ context }], [{ result }],
    [{ error }], [{ ctx }] or [{ revertErr }]. *)
Inductive Details : Type :=
| DContext (context : Ctx)
| DResult (result : Ctx)
| DError (error : Err)
| DCtx (c : Ctx)
| DRevertErr (revertErr : Err).

(** The private fields of [class Transaction]. *)
Record Transaction : Type := {
  tasks : list TransactionStep;
  globalRollback : option RollbackFunction;
  stepEvents : StepEvents;
  logger : option (string -> Details -> Callback unit)
}.

(** [type Context = { step: string; ctx: any }], local to [run]. *)
Record ContextEntry : Type := {
  step : string;
  ctx : Ctx
}.

(** ** Builder methods *)

(** [constructor(logger?)] *)
Definition new_Transaction
    (lg : option (string -> Details -> Callback unit)) : Transaction :=
  {| tasks := [];
     globalRollback := None;
     stepEvents := {| onStart := None; onSuccess := None; onError := None |};
     logger := lg |}.

(** [step(step)]: [this.tasks.push(step)] *)
Definition Transaction_step (t : Transaction) (s : TransactionStep)
    : Transaction :=
  {| tasks := tasks t ++ [s];
     globalRollback := globalRollback t;
     stepEvents := stepEvents t;
     logger := logger t |}.

(** [steps(steps)]: [this.tasks.push(...steps)] *)
Definition Transaction_steps (t : Transaction) (l : list TransactionStep)
    : Transaction :=
  {| tasks := tasks t ++ l;
     globalRollback := globalRollback t;
     stepEvents := stepEvents t;
     logger := logger t |}.

(** [onStep(events)]: both the step events and the global rollback are
    overwritten. *)
Definition Transaction_onStep (t : Transaction) (events : StepEvents)
    (rb : option RollbackFunction) : Transaction :=
  {| tasks := tasks t;
     globalRollback := rb;
     stepEvents := {| onStart := onStart events;
                      onSuccess := onSuccess events;
                      onError := onError events |};
     logger := logger t |}.

(** ** Calls made by [run] *)

Inductive Event : Type :=
| EvLog (msg : string) (d : Details)
| EvStart (n : string) (context : Ctx)
| EvExecute (n : string) (context : Ctx)
| EvSuccess (n : string) (context result : Ctx)
| EvError (n : string) (context : Ctx) (error : Err)
| EvWait (ms : Z)
| EvRollback (n : string) (c : Ctx) (error : Err)
| EvGlobalRollback (c : Ctx) (error : Err)
| EvWarn (msg : string) (revertErr : Err).

(** ** The monad of [run]: state, calls made, exceptions *)

(** The mutable state during [run]: the world of the callbacks and the
    local array [contexts]. *)
Record St : Type := {
  world : W;
  contexts : list ContextEntry
}.

Record Res (A : Type) : Type := {
  st : St;
  evs : list Event;
  out : outcome Err A
}.

Definition M (A : Type) : Type := St -> Res A.

Definition ret {A} (a : A) : M A :=
  fun s => {| st := s; evs := []; out := Ret a |}.

Definition throw {A} (e : Err) : M A :=
  fun s => {| st := s; evs := []; out := Throw e |}.

Definition bind {A B} (m : M A) (f : A -> M B) : M B :=
  fun s =>
    let r := m s in
    match out r with
    | Ret a =>
        let r' := f a (st r) in
        {| st := st r'; evs := evs r ++ evs r'; out := out r' |}
    | Throw e => {| st := st r; evs := evs r; out := Throw e |}
    end.

(** [try { m } catch (e) { h e }] *)
Definition try_catch {A} (m : M A) (h : Err -> M A) : M A :=
  fun s =>
    let r := m s in
    match out r with
    | Ret a => r
    | Throw e =>
        let r' := h e (st r) in
        {| st := st r'; evs := evs r ++ evs r'; out := out r' |}
    end.

(** An awaited call of a user callback, recorded as [ev]. *)
Definition call {A} (ev : Event) (f : Callback A) : M A :=
  fun s =>
    let wo := f (world s) in
    {| st := {| world := fst wo; contexts := contexts s |};
       evs := [ev];
       out := snd wo |}.

(** An effect of the runtime itself ([setTimeout], [console.warn]). *)
Definition emit (ev : Event) : M unit :=
  fun s => {| st := s; evs := [ev]; out := Ret tt |}.

(** [contexts.push(c)] *)
Definition push (c : ContextEntry) : M unit :=
  fun s => {| st := {| world := world s; contexts := contexts s ++ [c] |};
              evs := [];
              out := Ret tt |}.

(** Sequencing, written as the source's statement sequences. *)
Notation "x <- m ;; k" := (bind m (fun x => k))
  (at level 100, m at next level, right associativity).
Notation "m ;; k" := (bind m (fun _ => k))
  (at level 100, right associativity).

(** ** [run] *)

(** [this.logger?.(msg, d)] *)
Definition log (t : Transaction) (msg : string) (d : Details) : M unit :=
  match logger t with
  | Some f => call (EvLog msg d) (f msg d)
  | None => ret tt
  end.

(** [await this.stepEvents.onStart?.(name, context)] *)
Definition on_start (t : Transaction) (n : string) (context : Ctx) : M unit :=
  match onStart (stepEvents t) with
  | Some f => call (EvStart n context) (f n context)
  | None => ret tt
  end.

(** [await this.stepEvents.onSuccess?.(name, context, result)] *)
Definition on_success (t : Transaction) (n : string) (context result : Ctx)
    : M unit :=
  match onSuccess (stepEvents t) with
  | Some f => call (EvSuccess n context result) (f n context result)
  | None => ret tt
  end.

(** [await this.stepEvents.onError?.(name, context, lastError)] *)
Definition on_error (t : Transaction) (n : string) (context : Ctx)
    (error : Err) : M unit :=
  match onError (stepEvents t) with
  | Some f => call (EvError n context error) (f n context error)
  | None => ret tt
  end.

(** [retry?.attempts ?? 1] *)
Definition initial_attempts (s : TransactionStep) : Z :=
  match retry s with
  | Some r => attempts r
  | None => 1
  end.

(** [retry?.delayMs] as a condition: the delay when it is truthy, that is
    when [retry] is there and the number is not zero. *)
Definition truthy_delayMs (s : TransactionStep) : option Z :=
  match retry s with
  | Some r => if (delayMs r =? 0)%Z then None else Some (delayMs r)
  | None => None
  end.

(** The body of [try] in the retry loop: one attempt. *)
Definition attempt (t : Transaction) (s : TransactionStep) (context : Ctx)
    : M Ctx :=
  result <- call (EvExecute (name s) context) (execute s context);;
  log t ("Step " ++ name s ++ " succeeded") (DResult result);;
  on_success t (name s) context result;;
  push {| step := name s; ctx := context |};;
  ret result.

(** The [else] branch of the retry loop's [catch]. *)
Definition report_failure (t : Transaction) (s : TransactionStep)
    (context : Ctx) (error : Err) : M Ctx :=
  log t ("Step " ++ name s ++ " failed") (DError error);;
  on_error t (name s) context error;;
  throw error.

(** [while (attempts > 0) { try { ... break } catch (error) { ... } }]
    with [n] the value of the local [attempts], an integer that only
    decreases; a value below zero behaves as zero.  The loop returns the
    value of [context] on leaving it. *)
Fixpoint retry_loop (t : Transaction) (s : TransactionStep) (context : Ctx)
    (n : nat) : M Ctx :=
  match n with
  | O => ret context
  | S n' =>
      try_catch (attempt t s context)
        (fun error =>
           match (0 <? n')%nat, truthy_delayMs s with
           | true, Some ms =>
               log t ("Retrying step " ++ name s ++ " after error")
                 (DError error);;
               emit (EvWait ms);;
               retry_loop t s context n'
           | _, _ => report_failure t s context error
           end)
  end.

(** One iteration of [for (const { name, execute, retry } of this.tasks)]. *)
Definition run_step (t : Transaction) (s : TransactionStep) (context : Ctx)
    : M Ctx :=
  log t ("Starting step: " ++ name s) (DContext context);;
  on_start t (name s) context;;
  retry_loop t s context (Z.to_nat (initial_attempts s)).

(** The [for ... of] loop over the steps still to run. *)
Fixpoint steps_loop (t : Transaction) (l : list TransactionStep)
    (context : Ctx) : M Ctx :=
  match l with
  | [] => ret context
  | s :: rest =>
      context' <- run_step t s context;;
      steps_loop t rest context'
  end.

(** [this.tasks.find((s) => s.name === step)] *)
Definition find_step (l : list TransactionStep) (n : string)
    : option TransactionStep :=
  find (fun s => String.eqb (name s) n) l.

Definition dquote : string := String (Ascii.ascii_of_nat 34) EmptyString.

(** The step-specific part of one rollback iteration. *)
Definition step_rollback (t : Transaction) (error : Err) (c : ContextEntry)
    : M unit :=
  match find_step (tasks t) (step c) with
  | Some stepDef =>
      match rollback stepDef with
      | Some rb =>
          try_catch
            (log t ("Executing step-specific rollback for " ++ step c)
               (DCtx (ctx c));;
             call (EvRollback (step c) (ctx c) error) (rb (ctx c) error))
            (fun revertErr =>
               log t ("Step-specific rollback failed for " ++ step c)
                 (DRevertErr revertErr);;
               emit (EvWarn ("Step-specific rollback failed for "
                             ++ dquote ++ step c ++ dquote ++ ":")
                       revertErr))
      | None => ret tt
      end
  | None => ret tt
  end.

(** The global part of one rollback iteration. *)
Definition global_rollback (t : Transaction) (error : Err) (c : ContextEntry)
    : M unit :=
  match globalRollback t with
  | Some g =>
      try_catch
        (log t ("Executing global rollback for " ++ step c) (DCtx (ctx c));;
         call (EvGlobalRollback (ctx c) error) (g (ctx c) error))
        (fun revertErr =>
           log t ("Global rollback failed for " ++ step c)
             (DRevertErr revertErr);;
           emit (EvWarn ("Global rollback failed for "
                         ++ dquote ++ step c ++ dquote ++ ":")
                   revertErr))
  | None => ret tt
  end.

(** The body of the rollback loop for [contexts[i]]. *)
Definition rollback_entry (t : Transaction) (error : Err) (c : ContextEntry)
    : M unit :=
  step_rollback t error c;;
  global_rollback t error c.

(** The entries in the order the loop visits them. *)
Fixpoint rollback_loop (t : Transaction) (error : Err)
    (l : list ContextEntry) : M unit :=
  match l with
  | [] => ret tt
  | c :: rest => rollback_entry t error c;; rollback_loop t error rest
  end.

(** [for (let i = contexts.length - 1; i >= 0; i--)] *)
Definition rollback_all (t : Transaction) (error : Err) : M unit :=
  fun s => rollback_loop t error (rev (contexts s)) s.

(** The outer [catch] of [run]. *)
Definition on_failure (t : Transaction) (error : Err) : M Ctx :=
  log t "Transaction failed, initiating rollback" (DError error);;
  rollback_all t error;;
  throw error.

(** [async run()], from the state in which it finds the world. *)
Definition run (t : Transaction) : M Ctx :=
  try_catch (steps_loop t (tasks t) undefined) (on_failure t).

(** A call of [run] in world [w]: [contexts] starts empty. *)
Definition run_in (t : Transaction) (w : W) : Res Ctx :=
  run t {| world := w; contexts := [] |}.

(** ** Reading the list of calls *)

Definition is_compensation (ev : Event) : bool :=
  match ev with
  | EvRollback _ _ _ | EvGlobalRollback _ _ => true
  | _ => false
  end.

Definition is_observer (ev : Event) : bool :=
  match ev with
  | EvStart _ _ | EvSuccess _ _ _ | EvError _ _ _ => true
  | _ => false
  end.

Definition is_attempt (ev : Event) : bool :=
  match ev with
  | EvExecute _ _ | EvWait _ => true
  | _ => false
  end.

Definition is_onError (ev : Event) : bool :=
  match ev with
  | EvError _ _ _ => true
  | _ => false
  end.

(** The compensations invoked, step-specific and global. *)
Definition compensations (l : list Event) : list Event :=
  filter is_compensation l.

(** The step events fired. *)
Definition observed (l : list Event) : list Event := filter is_observer l.

(** The invocations of actions and the waits between them. *)
Definition attempts_made (l : list Event) : list Event :=
  filter is_attempt l.

(** The invocations of [onError]. *)
Definition errors_reported (l : list Event) : list Event :=
  filter is_onError l.

(** ** Assumptions on the callbacks *)

(** The logger, when there is one, returns. *)
Definition quiet_logger (t : Transaction) : Prop :=
  match logger t with
  | Some f => forall msg d w, snd (f msg d w) = Ret tt
  | None => True
  end.

(** [onStart], when there is one, returns. *)
Definition quiet_onStart (t : Transaction) : Prop :=
  match onStart (stepEvents t) with
  | Some f => forall n c w, snd (f n c w) = Ret tt
  | None => True
  end.

(** [onSuccess], when there is one, returns. *)
Definition quiet_onSuccess (t : Transaction) : Prop :=
  match onSuccess (stepEvents t) with
  | Some f => forall n c r w, snd (f n c r w) = Ret tt
  | None => True
  end.

(** [onError], when there is one, returns. *)
Definition quiet_onError (t : Transaction) : Prop :=
  match onError (stepEvents t) with
  | Some f => forall n c e w, snd (f n c e w) = Ret tt
  | None => True
  end.

(** The retry budget of the step is at least one attempt. *)
Definition has_attempts (s : TransactionStep) : Prop :=
  (1 <= initial_attempts s)%Z.

(** The compensations [rollback_entry] is to invoke for one entry, in
    order: the rollback of the first step of that name, when it has one,
    then the global rollback, when it is set. *)
Definition entry_compensations (t : Transaction) (error : Err)
    (c : ContextEntry) : list Event :=
  match find_step (tasks t) (step c) with
  | Some stepDef =>
      match rollback stepDef with
      | Some _ => [EvRollback (step c) (ctx c) error]
      | None => []
      end
  | None => []
  end
  ++
  match globalRollback t with
  | Some _ => [EvGlobalRollback (ctx c) error]
  | None => []
  end.

(** The step events [run] fires, when they are set. *)
Definition started (t : Transaction) (s : TransactionStep) (context : Ctx)
    : list Event :=
  match onStart (stepEvents t) with
  | Some _ => [EvStart (name s) context]
  | None => []
  end.

Definition succeeded (t : Transaction) (s : TransactionStep)
    (context result : Ctx) : list Event :=
  match onSuccess (stepEvents t) with
  | Some _ => [EvSuccess (name s) context result]
  | None => []
  end.

Definition reported (t : Transaction) (s : TransactionStep) (context : Ctx)
    (error : Err) : list Event :=
  match onError (stepEvents t) with
  | Some _ => [EvError (name s) context error]
  | None => []
  end.

(** [n] invocations of an action with a wait between one and the next. *)
Fixpoint with_waits (n : nat) (invocation pause : Event) : list Event :=
  match n with
  | O => []
  | S O => [invocation]
  | S n' => invocation :: pause :: with_waits n' invocation pause
  end.

(** The number of invocations a step makes of an action that fails each
    time: all of [n] when a delay is configured, one otherwise. *)
Definition invocations_when_failing (s : TransactionStep) (n : nat) : nat :=
  match truthy_delayMs s with
  | Some _ => n
  | None => 1
  end.

(** The wait of a step, for the steps that have one. *)
Definition pause_of (s : TransactionStep) : Event :=
  match truthy_delayMs s with
  | Some ms => EvWait ms
  | None => EvWait 0
  end.

(** ** What a computation leaves alone *)

(** [keeps m]: [m] does not touch the array [contexts]. *)
Definition keeps {A} (m : M A) : Prop :=
  forall q, contexts (st (m q)) = contexts q.

(** [emits P m]: every call [m] makes satisfies [P]. *)
Definition emits {A} (P : Event -> Prop) (m : M A) : Prop :=
  forall q, Forall P (evs (m q)).

(** [appends c r q]: the computation that went from [q] to [r] has pushed
    [c] if it returned and nothing if it threw. *)
Definition appends {A} (c : ContextEntry) (r : Res A) (q : St) : Prop :=
  match out r with
  | Ret _ => contexts (st r) = (contexts q ++ [c])%list
  | Throw _ => contexts (st r) = contexts q
  end.

(** ** Further readings of the list of calls *)

Definition is_onStart (ev : Event) : bool :=
  match ev with
  | EvStart _ _ => true
  | _ => false
  end.

Definition is_warning (ev : Event) : bool :=
  match ev with
  | EvWarn _ _ => true
  | _ => false
  end.

(** The invocations of [onStart]. *)
Definition starts_fired (l : list Event) : list Event := filter is_onStart l.

(** The calls of [console.warn]. *)
Definition warnings (l : list Event) : list Event := filter is_warning l.

(** ** A pipeline of actions that return *)

(** With [f s c] the result of the action of [s] on [c]: the invocations
    of the actions of [l] from the context [c], each on the result of the
    one before. *)
Fixpoint executions (f : TransactionStep -> Ctx -> Ctx)
    (l : list TransactionStep) (c : Ctx) : list Event :=
  match l with
  | [] => []
  | s :: rest => EvExecute (name s) c :: executions f rest (f s c)
  end.

(** The entries these steps push: each with the context it was given. *)
Fixpoint history (f : TransactionStep -> Ctx -> Ctx)
    (l : list TransactionStep) (c : Ctx) : list ContextEntry :=
  match l with
  | [] => []
  | s :: rest => {| step := name s; ctx := c |} :: history f rest (f s c)
  end.

(** ** The worlds a run goes through *)

(** The world a callback leaves when it returns. *)
Definition returned_world (wo : W * outcome Err unit) : option W :=
  match snd wo with
  | Ret _ => Some (fst wo)
  | Throw _ => None
  end.

(** The world after [this.logger?.(msg, d)], when the logger returns. *)
Definition log_world (t : Transaction) (msg : string) (d : Details) (w : W)
    : option W :=
  match logger t with
  | Some f => returned_world (f msg d w)
  | None => Some w
  end.

(** The world after [onStart?.(n, cx)], when it returns. *)
Definition start_world (t : Transaction) (n : string) (cx : Ctx) (w : W)
    : option W :=
  match onStart (stepEvents t) with
  | Some f => returned_world (f n cx w)
  | None => Some w
  end.

(** The world after [onSuccess?.(n, cx, result)], when it returns. *)
Definition success_world (t : Transaction) (n : string) (cx result : Ctx)
    (w : W) : option W :=
  match onSuccess (stepEvents t) with
  | Some f => returned_world (f n cx result w)
  | None => Some w
  end.

(** The world in which the action of [s] is invoked on [cx], the step
    being entered in [w]: the logger has been told of the start and
    [onStart] has been called with the name of [s] and [cx]. *)
Definition before_action (t : Transaction) (s : TransactionStep) (cx : Ctx)
    (w : W) : option W :=
  match log_world t ("Starting step: " ++ name s) (DContext cx) w with
  | Some w1 => start_world t (name s) cx w1
  | None => None
  end.

(** The world a step is left in, its action having returned [result] in
    [w]: the logger has been told of the success and [onSuccess] has been
    called with the name of [s], [cx] and [result]. *)
Definition after_action (t : Transaction) (s : TransactionStep)
    (cx result : Ctx) (w : W) : option W :=
  match log_world t ("Step " ++ name s ++ " succeeded") (DResult result) w with
  | Some w1 => success_world t (name s) cx result w1
  | None => None
  end.

(** [logged t w w']: [w'] is reached from [w] by calls of the logger
    alone. *)
Inductive logged (t : Transaction) (w : W) : W -> Prop :=
| logged_none : logged t w w
| logged_call f msg d w' :
    logger t = Some f -> logged t w w' -> logged t w (fst (f msg d w')).

(** [applied h c error w w']: the handler [h], when there is one, has been
    called in [w] on the context of [c] and on [error], and has left
    [w']. *)
Definition applied (h : option RollbackFunction) (c : ContextEntry)
    (error : Err) (w w' : W) : Prop :=
  match h with
  | Some f => w' = fst (f (ctx c) error w)
  | None => w' = w
  end.

(** [stepDef?.rollback] for the entry [c]. *)
Definition step_rollback_of (t : Transaction) (c : ContextEntry)
    : option RollbackFunction :=
  match find_step (tasks t) (step c) with
  | Some stepDef => rollback stepDef
  | None => None
  end.

(** The worlds of one rollback iteration: the rollback of the step, then
    the global rollback, with calls of the logger in between. *)
Definition entry_unwound (t : Transaction) (error : Err) (c : ContextEntry)
    (w w' : W) : Prop :=
  exists w1 w2 w3 w4,
    logged t w w1
    /\ applied (step_rollback_of t c) c error w1 w2
    /\ logged t w2 w3
    /\ applied (globalRollback t) c error w3 w4
    /\ logged t w4 w'.

(** The worlds of the rollback iterations for the entries of [l], in
    that order. *)
Fixpoint unwound (t : Transaction) (error : Err) (l : list ContextEntry)
    (w w' : W) : Prop :=
  match l with
  | [] => w' = w
  | c :: rest =>
      exists w1, entry_unwound t error c w w1 /\ unwound t error rest w1 w'
  end.

End Txn.

(** * Example transactions *)

Module Scenario.

(** The contexts of the examples: [undefined] and the objects [{ v: n }]. *)
Inductive value : Type :=
| Undefined
| Obj (v : Z).

Inductive error : Type :=
| E
| TypeError
| CompensationFailed
| ObserverFailed.

(** What the callbacks of the examples close over: a counter of calls and
    the lines they have written. *)
Record Env : Type := {
  calls : nat;
  lines : list (string * value)
}.

Definition start : Env := {| calls := 0; lines := [] |}.

Definition write (line : string) (v : value) (w : Env) : Env :=
  {| calls := calls w; lines := (lines w ++ [(line, v)])%list |}.

Definition count (w : Env) : Env :=
  {| calls := S (calls w); lines := lines w |}.

Definition Step : Type := @TransactionStep Env value error.
Definition Txn : Type := @Transaction Env value error.

(** A rollback that writes the context it is given. *)
Definition writing_rollback (line : string)
    : @RollbackFunction Env value error :=
  fun c _ w => (write line c w, Ret tt).

(** A rollback that throws. *)
Definition throwing_rollback : @RollbackFunction Env value error :=
  fun _ _ w => (w, Throw CompensationFailed).

(** [execute: () => ({ v: 1 })] *)
Definition fetch : Step :=
  {| name := "fetch";
     execute := fun _ w => (w, Ret (Obj 1));
     rollback := Some (writing_rollback "fetch");
     retry := None |}.

(** [execute: (ctx) => ({ v: ctx.v + 1 })] *)
Definition process : Step :=
  {| name := "process";
     execute := fun c w =>
       match c with
       | Obj v => (w, Ret (Obj (v + 1)))
       | Undefined => (w, Throw TypeError)
       end;
     rollback := Some (writing_rollback "process");
     retry := None |}.

(** [process] with a rollback that throws. *)
Definition process_unsafe : Step :=
  {| name := "process";
     execute := execute process;
     rollback := Some throwing_rollback;
     retry := None |}.

(** [execute: () => { throw E }] *)
Definition always_fail : Step :=
  {| name := "always_fail";
     execute := fun _ w => (w, Throw E);
     rollback := Some (writing_rollback "always_fail");
     retry := None |}.

(** [always_fail] with [retry: { attempts: 3, delayMs: 10 }]. *)
Definition always_fail_retried : Step :=
  {| name := "always_fail";
     execute := execute always_fail;
     rollback := rollback always_fail;
     retry := Some {| attempts := 3; delayMs := 10 |} |}.

(** [execute: (ctx) => ({ v: (ctx?.v ?? 0) + 1 })] *)
Definition bump : Step :=
  {| name := "bump";
     execute := fun c w =>
       match c with
       | Obj v => (w, Ret (Obj (v + 1)))
       | Undefined => (w, Ret (Obj 1))
       end;
     rollback := Some (writing_rollback "bump");
     retry := None |}.

(** A second step of the name [bump], with a rollback of its own. *)
Definition bump_again : Step :=
  {| name := "bump";
     execute := execute bump;
     rollback := Some (writing_rollback "bump again");
     retry := None |}.

(** An action that counts its calls, throws [E] at the first two and
    returns [{ v: 3 }] at the third; the retry policy is a parameter. *)
Definition flaky (r : Retry) : Step :=
  {| name := "flaky";
     execute := fun _ w =>
       if (calls w <? 2)%nat then (count w, Throw E)
       else (count w, Ret (Obj (Z.of_nat (S (calls w)))));
     rollback := Some (writing_rollback "flaky");
     retry := Some r |}.

(** [fetch] with [retry: { attempts: 2, delayMs: 10 }]. *)
Definition fetch_retried : Step :=
  {| name := "fetch";
     execute := execute fetch;
     rollback := rollback fetch;
     retry := Some {| attempts := 2; delayMs := 10 |} |}.

Definition no_events : @StepEvents Env value error :=
  {| onStart := None; onSuccess := None; onError := None |}.

(** Step events that write what they are told. *)
Definition writing_events : @StepEvents Env value error :=
  {| onStart := Some (fun n c w => (write ("start " ++ n) c w, Ret tt));
     onSuccess :=
       Some (fun n c r w => (write ("success " ++ n) r w, Ret tt));
     onError := Some (fun n c _ w => (write ("error " ++ n) c w, Ret tt)) |}.

(** An [onStart] that throws at the step [process]. *)
Definition failing_onStart : @StepEvents Env value error :=
  {| onStart := Some (fun n _ w =>
                        if String.eqb n "process"
                        then (w, Throw ObserverFailed) else (w, Ret tt));
     onSuccess := None;
     onError := None |}.

(** An [onSuccess] that throws at the step [process]. *)
Definition failing_onSuccess : @StepEvents Env value error :=
  {| onStart := None;
     onSuccess := Some (fun n _ _ w =>
                          if String.eqb n "process"
                          then (w, Throw ObserverFailed) else (w, Ret tt));
     onError := None |}.

(** An [onError] that throws. *)
Definition failing_onError : @StepEvents Env value error :=
  {| onStart := None;
     onSuccess := None;
     onError := Some (fun _ _ _ w => (w, Throw ObserverFailed)) |}.

(** An [onSuccess] that counts its calls and throws at the first one. *)
Definition onSuccess_failing_once : @StepEvents Env value error :=
  {| onStart := None;
     onSuccess := Some (fun _ _ _ w =>
                          if (calls w =? 0)%nat
                          then (count w, Throw ObserverFailed)
                          else (count w, Ret tt));
     onError := None |}.

(** A logger that returns. *)
Definition silent_logger
    : string -> @Details value error -> @Callback Env error unit :=
  fun _ _ w => (w, Ret tt).

(** [new Transaction(logger).steps(l).onStep({ ...events, rollback })] *)
Definition transaction
    (lg : option (string -> @Details value error -> @Callback Env error unit))
    (l : list Step) (events : @StepEvents Env value error)
    (rb : option (@RollbackFunction Env value error)) : Txn :=
  Transaction_onStep (Transaction_steps (new_Transaction lg) l) events rb.

(** The scenario of the specification: [fetch], [process], [always_fail],
    no retries, rollbacks that write the context they receive. *)
Definition fetch_process_fail : Txn :=
  transaction None [fetch; process; always_fail] no_events None.

(** The same with a rollback of [process] that throws, and a logger. *)
Definition unsafe_rollback : Txn :=
  transaction (Some silent_logger) [fetch; process_unsafe; always_fail]
    no_events None.

(** A step rollback and a global rollback, that of [process] throwing. *)
Definition with_global_rollback : Txn :=
  transaction None [fetch; process_unsafe; always_fail] no_events
    (Some (writing_rollback "global")).

(** Two steps of one name, with different rollbacks. *)
Definition same_name : Txn :=
  transaction None [bump; bump_again; always_fail] no_events None.

Definition exhausted : Txn :=
  transaction None [always_fail_retried; bump] writing_events None.

Definition three_steps : Txn :=
  transaction None [fetch; bump; bump] writing_events None.

Definition onStart_fails : Txn :=
  transaction None [fetch; process; bump] failing_onStart None.

Definition onSuccess_fails : Txn :=
  transaction None [fetch; process; bump] failing_onSuccess None.

Definition onError_fails : Txn :=
  transaction None [fetch; always_fail_retried; bump] failing_onError None.

Definition onSuccess_fails_once : Txn :=
  transaction None [fetch_retried] onSuccess_failing_once None.

(** [onSuccess] throws once at [fetch], which is retried; then
    [always_fail] throws. *)
Definition onSuccess_recovers : Txn :=
  transaction None [fetch_retried; always_fail] onSuccess_failing_once None.

(** [retry: { attempts: 3, delayMs: 0 }] *)
Definition no_delay : Txn :=
  transaction None [flaky {| attempts := 3; delayMs := 0 |}] no_events None.

Definition no_delay_then_bump : Txn :=
  transaction None [flaky {| attempts := 3; delayMs := 0 |}; bump]
    writing_events None.

(** [retry: { attempts: 3, delayMs: 10 }] *)
Definition with_delay_then_bump : Txn :=
  transaction None [flaky {| attempts := 3; delayMs := 10 |}; bump]
    writing_events None.

End Scenario.

(** * Transactions at the edges *)

Module Edge.

Import Scenario.

(** [bump] with [retry: { attempts: 0, delayMs: 10 }]. *)
Definition bump_never : Step :=
  {| name := "bump";
     execute := execute bump;
     rollback := rollback bump;
     retry := Some {| attempts := 0; delayMs := 10 |} |}.

(** A logger that throws. *)
Definition throwing_logger
    : string -> @Details value error -> @Callback Env error unit :=
  fun _ _ w => (w, Throw ObserverFailed).

(** No step at all, with everything else set. *)
Definition empty : Txn :=
  transaction (Some silent_logger) [] writing_events
    (Some (writing_rollback "global")).

(** A step that is skipped, between two that run. *)
Definition skipping : Txn :=
  transaction None [fetch; bump_never; bump] writing_events None.

(** The first step fails; a global rollback is set. *)
Definition fails_at_once : Txn :=
  transaction None [always_fail; bump] no_events
    (Some (writing_rollback "global")).

(** A logger that throws at every call. *)
Definition logger_throws : Txn :=
  transaction (Some throwing_logger) [fetch; bump] writing_events
    (Some (writing_rollback "global")).

(** Three attempts of [flaky], with a logger and the step events. *)
Definition flaky_logged : Txn :=
  transaction (Some silent_logger)
    [flaky {| attempts := 3; delayMs := 10 |}; bump] writing_events None.

(** [fetch], [process], [bump], with step events that write. *)
Definition fetch_process_bump : Txn :=
  transaction None [fetch; process; bump] writing_events None.

(** [process] with [retry: { attempts: 2, delayMs: 10 }]. *)
Definition process_retried : Step :=
  {| name := "process";
     execute := execute process;
     rollback := rollback process;
     retry := Some {| attempts := 2; delayMs := 10 |} |}.

(** [onSuccess] throws at [process], which has two attempts. *)
Definition onSuccess_fails_retried : Txn :=
  transaction None [fetch; process_retried; bump] failing_onSuccess None.

End Edge.

(** * The script of [src/example.ts] *)

Module Example.

(** The contexts of the script: [undefined] and the objects
    [{ userId, step }]. *)
Inductive context : Type :=
| Undefined
| User (userId : Z) (step : string).

(** [new Error(message)] *)
Record Error : Type := { message : string }.

(** The arguments of a call of [console.log] or [console.error]. *)
Inductive item : Type :=
| Text (s : string)
| Value (c : context)
| Logged (d : @Details context Error)
| Thrown (e : Error).

Inductive stream : Type :=
| Log
| Err.

(** What has been printed, first line first. *)
Definition Console : Type := list (stream * list item).

Definition console_log (items : list item) (w : Console) : Console :=
  (w ++ [(Log, items)])%list.

Definition console_error (items : list item) (w : Console) : Console :=
  (w ++ [(Err, items)])%list.

(** [(msg, details) => console.log(msg, details)] *)
Definition logger
    : string -> @Details context Error -> @Callback Console Error unit :=
  fun msg details w => (console_log [Text msg; Logged details] w, Ret tt).

Definition user_query : @TransactionStep Console context Error :=
  {| name := "user_query";
     execute := fun _ w => (w, Ret (User 123 "user_query"));
     rollback := Some (fun c error w =>
       (console_log [Text ("Reverting user_query: " ++ message error);
                     Value c] w, Ret tt));
     retry := Some {| attempts := 2; delayMs := 100 |} |}.

(** [if (!ctx?.userId) throw new Error("Missing user")]: an [undefined]
    context and a [userId] of 0 are both falsy. *)
Definition user_update : @TransactionStep Console context Error :=
  {| name := "user_update";
     execute := fun c w =>
       match c with
       | User userId _ =>
           if (userId =? 0)%Z
           then (w, Throw {| message := "Missing user" |})
           else (w, Ret (User userId "user_update"))
       | Undefined => (w, Throw {| message := "Missing user" |})
       end;
     rollback := Some (fun c error w =>
       (console_log [Text ("Reverting user_update: " ++ message error);
                     Value c] w, Ret tt));
     retry := None |}.

Definition step_3 : @TransactionStep Console context Error :=
  {| name := "step_3";
     execute := fun _ w =>
       (w, Throw {| message := "Something failed in step 3" |});
     rollback := None;
     retry := None |}.

Definition events : @StepEvents Console context Error :=
  {| onStart := Some (fun n c w =>
       (console_log [Text ("Starting " ++ n); Value c] w, Ret tt));
     onSuccess := Some (fun n _ result w =>
       (console_log [Text ("Success " ++ n); Value result] w, Ret tt));
     onError := Some (fun n _ error w =>
       (console_log [Text ("Error in " ++ n); Text (message error)] w,
        Ret tt)) |}.

Definition global : @RollbackFunction Console context Error :=
  fun c error w =>
    (console_log [Text "Global rollback"; Value c; Text (message error)] w,
     Ret tt).

(** [new Transaction(logger).step(...).steps([...]).onStep({...})] *)
Definition txn : @Transaction Console context Error :=
  Transaction_onStep
    (Transaction_steps
       (Transaction_step (new_Transaction (Some logger)) user_query)
       [user_update; step_3])
    events (Some global).

(** [async function example()]: the console after the call. *)
Definition example (w : Console) : Console :=
  let r := run_in Undefined txn w in
  match out r with
  | Ret result =>
      console_log [Text "Transaction completed:"; Value result] (world (st r))
  | Throw error =>
      console_error [Text "Transaction failed:"; Thrown error] (world (st r))
  end.

End Example.

(** * Properties of [run] *)

Unset Implicit Arguments.

Section Facts.

Local Open Scope list_scope.

Context {W Ctx Err : Type}.
Variable undefined : Ctx.

Implicit Types (t : @Transaction W Ctx Err) (s : @TransactionStep W Ctx Err).
Implicit Types (q : @St W Ctx) (entry : @ContextEntry Ctx) (ev : @Event Ctx Err).
Implicit Types (error e : Err) (context result cx : Ctx).

Local Abbreviation Comp := (@M W Ctx Err).
Local Abbreviation Call := (@Callback W Err).

(** ** The monad *)

Lemma bind_Ret {A B} (m : Comp A) (f : A -> Comp B) q a :
  out (m q) = Ret a ->
  bind m f q = {| st := st (f a (st (m q)));
                  evs := evs (m q) ++ evs (f a (st (m q)));
                  out := out (f a (st (m q))) |}.
Proof. intros H. unfold bind. cbv zeta. rewrite H. reflexivity. Qed.

Lemma bind_Throw {A B} (m : Comp A) (f : A -> Comp B) q e :
  out (m q) = Throw e ->
  bind m f q = {| st := st (m q); evs := evs (m q); out := Throw e |}.
Proof. intros H. unfold bind. cbv zeta. rewrite H. reflexivity. Qed.

Lemma try_Ret {A} (m : Comp A) h q a :
  out (m q) = Ret a -> try_catch m h q = m q.
Proof. intros H. unfold try_catch. cbv zeta. rewrite H. reflexivity. Qed.

Lemma try_Throw {A} (m : Comp A) h q e :
  out (m q) = Throw e ->
  try_catch m h q = {| st := st (h e (st (m q)));
                       evs := evs (m q) ++ evs (h e (st (m q)));
                       out := out (h e (st (m q))) |}.
Proof. intros H. unfold try_catch. cbv zeta. rewrite H. reflexivity. Qed.

(** ** The logger *)

Lemma log_out t msg d q : quiet_logger t -> out (log t msg d q) = Ret tt.
Proof.
  unfold quiet_logger, log. destruct (logger t) as [f|]; intros H.
  - cbn. apply H.
  - reflexivity.
Qed.

Lemma log_contexts t msg d q : contexts (st (log t msg d q)) = contexts q.
Proof. unfold log. destruct (logger t); reflexivity. Qed.

Lemma log_filter (p : @Event Ctx Err -> bool) t msg d q :
  p (EvLog msg d) = false -> filter p (evs (log t msg d q)) = [].
Proof.
  intros H. unfold log. destruct (logger t); cbn; [rewrite H|]; reflexivity.
Qed.

Lemma keeps_ret {A} (a : A) : keeps (ret a : Comp A).
Proof. intros q. reflexivity. Qed.

Lemma keeps_throw {A} e : keeps (@throw W Ctx Err A e).
Proof. intros q. reflexivity. Qed.

Lemma keeps_call {A} ev (f : Call A) : keeps (call ev f).
Proof. intros q. reflexivity. Qed.

Lemma keeps_emit ev : keeps (emit ev : Comp unit).
Proof. intros q. reflexivity. Qed.

Lemma keeps_bind {A B} (m : Comp A) (f : A -> Comp B) :
  keeps m -> (forall a, keeps (f a)) -> keeps (bind m f).
Proof.
  intros Hm Hf q. unfold bind. cbv zeta.
  destruct (out (m q)) as [a|e]; cbn.
  - rewrite Hf. apply Hm.
  - apply Hm.
Qed.

Lemma keeps_try {A} (m : Comp A) h :
  keeps m -> (forall e, keeps (h e)) -> keeps (try_catch m h).
Proof.
  intros Hm Hh q. unfold try_catch. cbv zeta.
  destruct (out (m q)) as [a|e]; cbn.
  - apply Hm.
  - rewrite Hh. apply Hm.
Qed.

Lemma keeps_log t msg d : keeps (log t msg d).
Proof. intros q. apply log_contexts. Qed.

Lemma keeps_on_start t n context : keeps (on_start t n context).
Proof. intros q. unfold on_start. destruct (onStart _); reflexivity. Qed.

Lemma keeps_on_success t n context result :
  keeps (on_success t n context result).
Proof. intros q. unfold on_success. destruct (onSuccess _); reflexivity. Qed.

Lemma keeps_on_error t n context error : keeps (on_error t n context error).
Proof. intros q. unfold on_error. destruct (onError _); reflexivity. Qed.

Lemma emits_ret {A} P (a : A) : emits P (ret a : Comp A).
Proof. intros q. constructor. Qed.

Lemma emits_throw {A} P e : emits P (@throw W Ctx Err A e).
Proof. intros q. constructor. Qed.

Lemma emits_call {A} (P : Event -> Prop) ev (f : Call A) :
  P ev -> emits P (call ev f).
Proof. intros H q. cbn. auto. Qed.

Lemma emits_emit (P : Event -> Prop) ev :
  P ev -> emits P (emit ev : Comp unit).
Proof. intros H q. cbn. auto. Qed.

Lemma emits_push P c : emits P (push c : Comp unit).
Proof. intros q. constructor. Qed.

Lemma emits_bind {A B} P (m : Comp A) (f : A -> Comp B) :
  emits P m -> (forall a, emits P (f a)) -> emits P (bind m f).
Proof.
  intros Hm Hf q. unfold bind. cbv zeta.
  destruct (out (m q)) as [a|e]; cbn.
  - apply Forall_app. split; [apply Hm | apply Hf].
  - apply Hm.
Qed.

Lemma emits_try {A} P (m : Comp A) h :
  emits P m -> (forall e, emits P (h e)) -> emits P (try_catch m h).
Proof.
  intros Hm Hh q. unfold try_catch. cbv zeta.
  destruct (out (m q)) as [a|e]; cbn.
  - apply Hm.
  - apply Forall_app. split; [apply Hm | apply Hh].
Qed.

Lemma emits_log (P : Event -> Prop) t msg d :
  P (EvLog msg d) -> emits P (log t msg d).
Proof.
  intros H. unfold log. destruct (logger t);
    [apply emits_call; exact H | apply emits_ret].
Qed.

Lemma emits_on_start (P : Event -> Prop) t n context :
  P (EvStart n context) -> emits P (on_start t n context).
Proof.
  intros H. unfold on_start. destruct (onStart _);
    [apply emits_call; exact H | apply emits_ret].
Qed.

Lemma emits_on_success (P : Event -> Prop) t n context result :
  P (EvSuccess n context result) -> emits P (on_success t n context result).
Proof.
  intros H. unfold on_success. destruct (onSuccess _);
    [apply emits_call; exact H | apply emits_ret].
Qed.

Lemma emits_on_error (P : Event -> Prop) t n context error :
  P (EvError n context error) -> emits P (on_error t n context error).
Proof.
  intros H. unfold on_error. destruct (onError _);
    [apply emits_call; exact H | apply emits_ret].
Qed.

Lemma filter_none {A} (p : A -> bool) (l : list A) :
  Forall (fun x => p x = false) l -> filter p l = [].
Proof.
  induction 1 as [|x l Hx _ IH]; cbn; [reflexivity|].
  rewrite Hx. exact IH.
Qed.

Create HintDb txn.
#[local] Hint Resolve keeps_ret keeps_throw keeps_call keeps_emit keeps_bind
  keeps_try keeps_log keeps_on_start keeps_on_success keeps_on_error
  emits_ret emits_throw emits_call emits_emit emits_push emits_bind emits_try
  emits_log emits_on_start emits_on_success emits_on_error : txn.
#[local] Hint Extern 1 (_ = false) => reflexivity : txn.

(** ** The forward pass invokes no compensation *)

Lemma attempt_forward t s context :
  emits (fun ev => is_compensation ev = false) (attempt t s context).
Proof. unfold attempt. auto 10 with txn. Qed.

Lemma report_failure_forward t s context error :
  emits (fun ev => is_compensation ev = false) (report_failure t s context error).
Proof. unfold report_failure. auto 10 with txn. Qed.

Lemma retry_loop_forward t s context n :
  emits (fun ev => is_compensation ev = false) (retry_loop t s context n).
Proof.
  induction n as [|n IH]; cbn [retry_loop]; [auto with txn|].
  apply emits_try; [apply attempt_forward|].
  intros e. destruct (0 <? n)%nat; [|apply report_failure_forward].
  destruct (truthy_delayMs s); [|apply report_failure_forward].
  auto 10 with txn.
Qed.

Lemma run_step_forward t s context :
  emits (fun ev => is_compensation ev = false) (run_step t s context).
Proof.
  unfold run_step. pose proof (retry_loop_forward t s context).
  auto 10 with txn.
Qed.

Lemma steps_loop_forward t l :
  forall context,
    emits (fun ev => is_compensation ev = false) (steps_loop t l context).
Proof.
  induction l as [|s l IH]; intros context; cbn [steps_loop];
    [auto with txn|].
  apply emits_bind; [apply run_step_forward | intros; apply IH].
Qed.

Lemma steps_loop_compensations t l context q :
  compensations (evs (steps_loop t l context q)) = [].
Proof. apply filter_none. apply steps_loop_forward. Qed.

(** ** What the forward pass appends to [contexts] *)

Lemma appends_bind {A B} c (m : Comp A) (f : A -> Comp B) q :
  keeps m -> (forall a q', appends c (f a q') q') ->
  appends c (bind m f q) q.
Proof.
  intros Hm Hf. unfold appends, bind. cbv zeta.
  destruct (out (m q)) as [a|e] eqn:E; cbn.
  - specialize (Hf a (st (m q))). unfold appends in Hf.
    rewrite Hm in Hf. exact Hf.
  - apply Hm.
Qed.

Lemma attempt_appends t s context q :
  appends {| step := name s; ctx := context |} (attempt t s context q) q.
Proof.
  unfold attempt.
  apply appends_bind; [auto with txn|]. intros result q1.
  apply appends_bind; [auto with txn|]. intros _ q2.
  apply appends_bind; [auto with txn|]. intros _ q3.
  reflexivity.
Qed.

Lemma report_failure_keeps t s context error : keeps (report_failure t s context error).
Proof. unfold report_failure. auto 10 with txn. Qed.

Lemma report_failure_throws t s context error q :
  exists e, out (report_failure t s context error q) = Throw e.
Proof.
  unfold report_failure, bind. cbv zeta.
  destruct (out (log _ _ _ q)) as [[]|e1]; cbn; [|eauto].
  destruct (out (on_error _ _ _ _ _)) as [[]|e2]; cbn; eauto.
Qed.

(** The retry loop: on a return either the entry of this step, with the
    context the step was given, has been pushed, or the loop was not
    entered; on a throw nothing has been pushed. *)
Lemma retry_loop_history t s context n :
  forall q,
    let r := retry_loop t s context n q in
    match out r with
    | Ret result =>
        contexts (st r) = contexts q ++ [{| step := name s; ctx := context |}]
        \/ (n = 0 /\ contexts (st r) = contexts q /\ result = context)
    | Throw _ => contexts (st r) = contexts q
    end.
Proof.
  induction n as [|n IH]; intros q; cbn [retry_loop].
  - cbn. right. auto.
  - cbv zeta. pose proof (attempt_appends t s context q) as Ha.
    unfold appends in Ha. unfold try_catch. cbv zeta.
    destruct (out (attempt t s context q)) as [result|e] eqn:E.
    + rewrite E. left. exact Ha.
    + cbn [out st].
      destruct (0 <? n)%nat eqn:En.
      2:{ destruct (report_failure_throws t s context e (st (attempt t s context q)))
            as [e' He']. rewrite He'. rewrite report_failure_keeps. exact Ha. }
      destruct (truthy_delayMs s) as [ms|].
      2:{ destruct (report_failure_throws t s context e (st (attempt t s context q)))
            as [e' He']. rewrite He'. rewrite report_failure_keeps. exact Ha. }
      apply Nat.ltb_lt in En.
      set (q1 := st (attempt t s context q)) in *.
      unfold bind. cbv zeta.
      destruct (out (log _ _ _ q1)) as [[]|e1] eqn:E1; cbn [out st].
      2:{ rewrite log_contexts. exact Ha. }
      specialize (IH (st (log t ("Retrying step " ++ name s ++ " after error")%string
                                (DError e) q1))).
      cbv zeta in IH. cbn [emit out st evs].
      destruct (out (retry_loop t s context n _)) as [res|e2].
      * destruct IH as [IH|[IH _]]; [|lia].
        left. rewrite IH, log_contexts, Ha. reflexivity.
      * rewrite IH, log_contexts. exact Ha.
Qed.

Lemma run_step_history t s context q :
  let r := run_step t s context q in
  match out r with
  | Ret result =>
      contexts (st r) = contexts q ++ [{| step := name s; ctx := context |}]
      \/ ((initial_attempts s <= 0)%Z
          /\ contexts (st r) = contexts q /\ result = context)
  | Throw _ => contexts (st r) = contexts q
  end.
Proof.
  cbv zeta. unfold run_step, bind. cbv zeta.
  destruct (out (log _ _ _ q)) as [[]|e1] eqn:E1; cbn [out st].
  2:{ apply log_contexts. }
  set (q1 := st (log _ _ _ q)).
  assert (H1 : contexts q1 = contexts q) by apply log_contexts.
  destruct (out (on_start _ _ _ q1)) as [[]|e2] eqn:E2; cbn [out st].
  2:{ rewrite keeps_on_start. exact H1. }
  set (q2 := st (on_start _ _ _ q1)).
  assert (H2 : contexts q2 = contexts q).
  { unfold q2. rewrite keeps_on_start. exact H1. }
  pose proof (retry_loop_history t s context
                (Z.to_nat (initial_attempts s)) q2) as H.
  cbv zeta in H.
  destruct (out (retry_loop _ _ _ _ q2)) as [result|e3].
  - destruct H as [H|(H & H' & H'')].
    + left. rewrite H, H2. reflexivity.
    + right. repeat split; [lia | congruence | assumption].
  - congruence.
Qed.

Lemma run_step_Ret t s context q result :
  has_attempts s ->
  out (run_step t s context q) = Ret result ->
  contexts (st (run_step t s context q))
  = contexts q ++ [{| step := name s; ctx := context |}].
Proof.
  intros Ha E. pose proof (run_step_history t s context q) as H.
  cbv zeta in H. rewrite E in H. unfold has_attempts in Ha.
  destruct H as [H|[H _]]; [exact H | lia].
Qed.

Lemma run_step_Throw t s context q e :
  out (run_step t s context q) = Throw e ->
  contexts (st (run_step t s context q)) = contexts q.
Proof.
  intros E. pose proof (run_step_history t s context q) as H.
  cbv zeta in H. rewrite E in H. exact H.
Qed.

(** ** The loop over the steps *)

Lemma steps_loop_app t l1 l2 :
  forall context q,
    steps_loop t (l1 ++ l2) context q
    = bind (steps_loop t l1 context) (steps_loop t l2) q.
Proof.
  induction l1 as [|s l1 IH]; intros context q; cbn [steps_loop app].
  - unfold bind, ret. cbn. destruct (steps_loop t l2 context q); reflexivity.
  - unfold bind. cbv zeta.
    destruct (out (run_step t s context q)) as [c1|e] eqn:E; cbn [out st evs].
    + rewrite IH. unfold bind. cbv zeta.
      destruct (out (steps_loop t l1 c1 _)); cbn [out st evs];
        rewrite ?app_assoc; reflexivity.
    + reflexivity.
Qed.

(** When the steps of [l] have all returned, [contexts] has grown by one
    entry for each of them, in their order. *)
Lemma steps_loop_names t l :
  forall context q result,
    Forall has_attempts l ->
    out (steps_loop t l context q) = Ret result ->
    map step (contexts (st (steps_loop t l context q)))
    = map step (contexts q) ++ map name l.
Proof.
  induction l as [|s l IH]; intros context q result Hl E;
    cbn [steps_loop map] in *.
  - cbn. rewrite app_nil_r. reflexivity.
  - inversion Hl as [|? ? Hs Hl']; subst.
    unfold bind in *. cbv zeta in *.
    destruct (out (run_step t s context q)) as [c1|e] eqn:E1;
      cbn [out st] in *; [|discriminate].
    rewrite (IH c1 _ result Hl' E).
    rewrite (run_step_Ret _ _ _ _ _ Hs E1).
    rewrite map_app, <- app_assoc. reflexivity.
Qed.

(** ** The rollback pass *)

(** A compensation called under [try], with the [catch] that logs and
    warns: whatever the compensation does, the whole returns, and the
    compensation has been called once. *)
Lemma guarded_compensation t msg d ev (f : Call unit) msg' warning q :
  quiet_logger t ->
  is_compensation ev = true ->
  let r := try_catch
             (bind (log t msg d) (fun _ => call ev f))
             (fun revertErr =>
                bind (log t msg' (DRevertErr revertErr))
                  (fun _ => emit (EvWarn warning revertErr))) q in
  out r = Ret tt /\ contexts (st r) = contexts q
  /\ compensations (evs r) = [ev].
Proof.
  intros Hq Hev. cbv zeta. unfold try_catch, bind. cbv zeta.
  rewrite (log_out _ _ _ _ Hq). cbn [out st evs call].
  set (q1 := st (log t msg d q)).
  assert (Hl : compensations (evs (log t msg d q)) = [])
    by (apply log_filter; reflexivity).
  destruct (f (world q1)) as [w' [[]|revertErr]]; cbn [fst snd out st evs].
  - repeat split.
    + cbn. apply log_contexts.
    + unfold compensations in *. rewrite filter_app, Hl. cbn.
      rewrite Hev. reflexivity.
  - rewrite (log_out _ _ _ _ Hq). cbn [out st evs emit].
    repeat split.
    + rewrite log_contexts. cbn. apply log_contexts.
    + unfold compensations in *. rewrite !filter_app, Hl.
      rewrite (log_filter is_compensation) by reflexivity.
      cbn. rewrite Hev. reflexivity.
Qed.

Lemma step_rollback_spec t error c q :
  quiet_logger t ->
  let r := step_rollback t error c q in
  out r = Ret tt /\ contexts (st r) = contexts q
  /\ compensations (evs r)
     = match find_step (tasks t) (step c) with
       | Some stepDef =>
           match rollback stepDef with
           | Some _ => [EvRollback (step c) (ctx c) error]
           | None => []
           end
       | None => []
       end.
Proof.
  intros Hq. unfold step_rollback.
  destruct (find_step (tasks t) (step c)) as [stepDef|]; [|cbn; auto].
  destruct (rollback stepDef) as [rb|]; [|cbn; auto].
  apply guarded_compensation; [exact Hq | reflexivity].
Qed.

Lemma global_rollback_spec t error c q :
  quiet_logger t ->
  let r := global_rollback t error c q in
  out r = Ret tt /\ contexts (st r) = contexts q
  /\ compensations (evs r)
     = match globalRollback t with
       | Some _ => [EvGlobalRollback (ctx c) error]
       | None => []
       end.
Proof.
  intros Hq. unfold global_rollback.
  destruct (globalRollback t) as [g|]; [|cbn; auto].
  apply guarded_compensation; [exact Hq | reflexivity].
Qed.

Lemma rollback_entry_spec t error c q :
  quiet_logger t ->
  let r := rollback_entry t error c q in
  out r = Ret tt /\ contexts (st r) = contexts q
  /\ compensations (evs r) = entry_compensations t error c.
Proof.
  intros Hq. cbv zeta. unfold rollback_entry.
  destruct (step_rollback_spec t error c q Hq) as (H1 & H2 & H3).
  rewrite (bind_Ret _ _ _ _ H1). cbn [out st evs].
  destruct (global_rollback_spec t error c (st (step_rollback t error c q)) Hq)
    as (G1 & G2 & G3).
  repeat split.
  - exact G1.
  - congruence.
  - unfold compensations in *. rewrite filter_app, H3, G3. reflexivity.
Qed.

Lemma rollback_loop_spec t error l :
  forall q,
    quiet_logger t ->
    let r := rollback_loop t error l q in
    out r = Ret tt /\ contexts (st r) = contexts q
    /\ compensations (evs r) = flat_map (entry_compensations t error) l.
Proof.
  induction l as [|c l IH]; intros q Hq; cbn [rollback_loop flat_map].
  - cbn. auto.
  - cbv zeta.
    destruct (rollback_entry_spec t error c q Hq) as (H1 & H2 & H3).
    rewrite (bind_Ret _ _ _ _ H1). cbn [out st evs].
    destruct (IH (st (rollback_entry t error c q)) Hq) as (I1 & I2 & I3).
    repeat split.
    + exact I1.
    + congruence.
    + unfold compensations in *. rewrite filter_app, H3, I3. reflexivity.
Qed.

(** The outer [catch]: every entry of [contexts] is compensated, the last
    one first, and the error caught is the error thrown. *)
Lemma on_failure_spec t error q :
  quiet_logger t ->
  let r := on_failure t error q in
  out r = Throw error /\ contexts (st r) = contexts q
  /\ compensations (evs r)
     = flat_map (entry_compensations t error) (rev (contexts q)).
Proof.
  intros Hq. cbv zeta. unfold on_failure.
  rewrite (bind_Ret _ _ _ _ (log_out _ _ _ _ Hq)). cbn [out st evs].
  set (q1 := st (log _ _ _ q)).
  assert (E1 : contexts q1 = contexts q) by apply log_contexts.
  destruct (rollback_loop_spec t error (rev (contexts q1)) q1 Hq)
    as (R1 & R2 & R3).
  change (rollback_loop t error (rev (contexts q1)) q1)
    with (rollback_all t error q1) in *.
  rewrite (bind_Ret _ _ _ _ R1). cbn [out st evs throw].
  repeat split.
  - congruence.
  - unfold compensations in *. rewrite !filter_app, R3, E1, app_nil_r.
    rewrite (log_filter is_compensation) by reflexivity. reflexivity.
Qed.

(** [run]: when the forward pass returns, so does [run]; when it throws,
    [run] goes through the outer [catch]. *)
Lemma run_Ret t q result :
  out (steps_loop t (tasks t) undefined q) = Ret result ->
  run undefined t q = steps_loop t (tasks t) undefined q.
Proof. intros E. unfold run. apply (try_Ret _ _ _ _ E). Qed.

Lemma run_Throw t q error :
  quiet_logger t ->
  out (steps_loop t (tasks t) undefined q) = Throw error ->
  let fwd := steps_loop t (tasks t) undefined q in
  let r := run undefined t q in
  out r = Throw error /\ contexts (st r) = contexts (st fwd)
  /\ compensations (evs r)
     = flat_map (entry_compensations t error) (rev (contexts (st fwd))).
Proof.
  intros Hq E. cbv zeta. unfold run. rewrite (try_Throw _ _ _ _ E).
  cbn [out st evs].
  destruct (on_failure_spec t error (st (steps_loop t (tasks t) undefined q)) Hq)
    as (F1 & F2 & F3).
  repeat split; [exact F1 | exact F2 |].
  unfold compensations in *. rewrite filter_app, F3.
  fold (compensations (evs (steps_loop t (tasks t) undefined q))).
  rewrite steps_loop_compensations. reflexivity.
Qed.

(** ** The step events *)

Lemma on_start_out t n context q :
  quiet_onStart t -> out (on_start t n context q) = Ret tt.
Proof.
  unfold quiet_onStart, on_start. destruct (onStart _); intros H;
    [apply H | reflexivity].
Qed.

Lemma on_success_out t n context result q :
  quiet_onSuccess t -> out (on_success t n context result q) = Ret tt.
Proof.
  unfold quiet_onSuccess, on_success. destruct (onSuccess _); intros H;
    [apply H | reflexivity].
Qed.

Lemma on_error_out t n context error q :
  quiet_onError t -> out (on_error t n context error q) = Ret tt.
Proof.
  unfold quiet_onError, on_error. destruct (onError _); intros H;
    [apply H | reflexivity].
Qed.

Lemma on_start_observed t s context q :
  observed (evs (on_start t (name s) context q)) = started t s context.
Proof. unfold on_start, started. destruct (onStart _); reflexivity. Qed.

Lemma on_success_observed t s context result q :
  observed (evs (on_success t (name s) context result q))
  = succeeded t s context result.
Proof. unfold on_success, succeeded. destruct (onSuccess _); reflexivity. Qed.

Lemma on_error_reported t s context error q :
  errors_reported (evs (on_error t (name s) context error q))
  = reported t s context error.
Proof. unfold on_error, reported. destruct (onError _); reflexivity. Qed.

(** ** One attempt *)

Lemma attempt_attempts_made t s context q :
  attempts_made (evs (attempt t s context q)) = [EvExecute (name s) context].
Proof.
  unfold attempt. unfold bind at 1. cbv zeta.
  destruct (out (call _ _ q)) as [result|e]; cbn [evs call]; [|reflexivity].
  unfold attempts_made. rewrite filter_app. cbn [filter is_attempt].
  rewrite filter_none; [reflexivity|].
  assert (H : emits (fun ev => is_attempt ev = false)
                (bind (log t ("Step " ++ name s ++ " succeeded")%string
                         (DResult result))
                   (fun _ => bind (on_success t (name s) context result)
                     (fun _ => bind (push {| step := name s; ctx := context |})
                       (fun _ => ret result)))))
    by auto 10 with txn.
  apply H.
Qed.

Lemma attempt_errors_reported t s context q :
  errors_reported (evs (attempt t s context q)) = [].
Proof.
  apply filter_none.
  assert (H : emits (fun ev => is_onError ev = false) (attempt t s context))
    by (unfold attempt; auto 10 with txn).
  apply H.
Qed.

Lemma attempt_executes t s context q :
  In (EvExecute (name s) context) (evs (attempt t s context q)).
Proof.
  unfold attempt. unfold bind at 1. cbv zeta.
  destruct (out (call _ _ q)); cbn [evs call]; left; reflexivity.
Qed.

(** The action returns and so does [onSuccess]: the attempt returns the
    result of the action. *)
Lemma attempt_Ret t s context q result :
  quiet_logger t -> quiet_onSuccess t ->
  snd (execute s context (world q)) = Ret result ->
  out (attempt t s context q) = Ret result
  /\ observed (evs (attempt t s context q)) = succeeded t s context result.
Proof.
  intros Hq Hs He. unfold attempt.
  assert (E : out (call (EvExecute (name s) context) (execute s context) q)
              = Ret result) by exact He.
  rewrite (bind_Ret _ _ _ _ E). cbn [out st evs].
  set (q1 := st (call _ _ q)).
  rewrite (bind_Ret _ _ _ _ (log_out _ _ _ _ Hq)). cbn [out st evs].
  set (q2 := st (log _ _ _ q1)).
  rewrite (bind_Ret _ _ _ _ (on_success_out _ _ _ _ _ Hs)). cbn [out st evs].
  split; [reflexivity|].
  unfold observed. rewrite !filter_app.
  rewrite (log_filter is_observer) by reflexivity.
  fold (observed (evs (on_success t (name s) context result q2))).
  rewrite on_success_observed. cbn. apply app_nil_r.
Qed.

(** The action throws: so does the attempt. *)
Lemma attempt_Throw_action t s context q e :
  snd (execute s context (world q)) = Throw e ->
  out (attempt t s context q) = Throw e.
Proof.
  intros He. unfold attempt.
  assert (E : out (call (EvExecute (name s) context) (execute s context) q)
              = Throw e) by exact He.
  rewrite (bind_Throw _ _ _ _ E). reflexivity.
Qed.

(** The action returns and [onSuccess] throws: so does the attempt. *)
Lemma attempt_Throw_onSuccess t s context q result f :
  quiet_logger t ->
  snd (execute s context (world q)) = Ret result ->
  onSuccess (stepEvents t) = Some f ->
  (forall w', exists e, snd (f (name s) context result w') = Throw e) ->
  exists e w',
    snd (f (name s) context result w') = Throw e
    /\ out (attempt t s context q) = Throw e.
Proof.
  intros Hq He Hf Hthrow. unfold attempt.
  assert (E : out (call (EvExecute (name s) context) (execute s context) q)
              = Ret result) by exact He.
  rewrite (bind_Ret _ _ _ _ E). cbn [out st evs].
  set (q1 := st (call _ _ q)).
  rewrite (bind_Ret _ _ _ _ (log_out _ _ _ _ Hq)). cbn [out st evs].
  set (q2 := st (log _ _ _ q1)).
  destruct (Hthrow (world q2)) as [e He2].
  assert (E2 : out (on_success t (name s) context result q2) = Throw e).
  { unfold on_success. rewrite Hf. cbn. exact He2. }
  rewrite (bind_Throw _ _ _ _ E2). exists e, (world q2). auto.
Qed.

(** ** Giving up *)

Lemma report_failure_spec t s context error q :
  quiet_logger t ->
  let r := report_failure t s context error q in
  errors_reported (evs r) = reported t s context error
  /\ attempts_made (evs r) = []
  /\ (exists e, out r = Throw e)
  /\ (quiet_onError t -> out r = Throw error)
  /\ (forall f e,
        onError (stepEvents t) = Some f ->
        (forall e0 w', snd (f (name s) context e0 w') = Throw e) ->
        out r = Throw e).
Proof.
  intros Hq. cbv zeta. split; [|split; [|split; [|split]]].
  - unfold report_failure.
    rewrite (bind_Ret _ _ _ _ (log_out _ _ _ _ Hq)). cbn [out st evs].
    set (q1 := st (log _ _ _ q)).
    unfold errors_reported. rewrite filter_app.
    rewrite (log_filter is_onError) by reflexivity. cbn [app].
    unfold bind. cbv zeta.
    destruct (out (on_error _ _ _ _ q1)); cbn [evs throw];
      rewrite ?app_nil_r; apply on_error_reported.
  - apply filter_none.
    assert (H : emits (fun ev => is_attempt ev = false)
                  (report_failure t s context error))
      by (unfold report_failure; auto 10 with txn).
    apply H.
  - apply report_failure_throws.
  - intros Ho. unfold report_failure.
    rewrite (bind_Ret _ _ _ _ (log_out _ _ _ _ Hq)). cbn [out st evs].
    rewrite (bind_Ret _ _ _ _ (on_error_out _ _ _ _ _ Ho)). reflexivity.
  - intros f e Hf Hthrow. unfold report_failure.
    rewrite (bind_Ret _ _ _ _ (log_out _ _ _ _ Hq)). cbn [out st evs].
    set (q1 := st (log _ _ _ q)).
    assert (E : out (on_error t (name s) context error q1) = Throw e).
    { unfold on_error. rewrite Hf. cbn. apply Hthrow. }
    rewrite (bind_Throw _ _ _ _ E). reflexivity.
Qed.

(** ** The retry loop, one iteration at a time *)

Lemma retry_loop_returns t s context n q result :
  out (attempt t s context q) = Ret result ->
  retry_loop t s context (S n) q = attempt t s context q.
Proof. intros E. cbn [retry_loop]. apply (try_Ret _ _ _ _ E). Qed.

Lemma retry_loop_gives_up t s context n q e :
  out (attempt t s context q) = Throw e ->
  n = 0 \/ truthy_delayMs s = None ->
  let r' := report_failure t s context e (st (attempt t s context q)) in
  retry_loop t s context (S n) q
  = {| st := st r';
       evs := evs (attempt t s context q) ++ evs r';
       out := out r' |}.
Proof.
  intros E H. cbn [retry_loop]. rewrite (try_Throw _ _ _ _ E).
  destruct H as [Hn | Hd]; [subst n; reflexivity | rewrite Hd].
  destruct (0 <? n)%nat; reflexivity.
Qed.

Lemma retry_loop_retries t s context n q e ms :
  quiet_logger t ->
  out (attempt t s context q) = Throw e ->
  0 < n ->
  truthy_delayMs s = Some ms ->
  let q1 := st (attempt t s context q) in
  let l := log t ("Retrying step " ++ name s ++ " after error")%string
             (DError e) q1 in
  let r' := retry_loop t s context n (st l) in
  retry_loop t s context (S n) q
  = {| st := st r';
       evs := evs (attempt t s context q) ++ evs l ++ EvWait ms :: evs r';
       out := out r' |}.
Proof.
  intros Hq E Hn Hms. cbv zeta. cbn [retry_loop].
  rewrite (try_Throw _ _ _ _ E).
  apply Nat.ltb_lt in Hn. rewrite Hn, Hms.
  rewrite (bind_Ret _ _ _ _ (log_out _ _ _ _ Hq)). cbn [out st evs].
  unfold bind at 1 2 3. cbn [emit out st evs app]. reflexivity.
Qed.

(** When every attempt throws, the loop invokes the action as often as it
    may, waits between two invocations, reports the error of the last
    attempt to [onError] and throws. *)
Lemma retry_loop_exhausts t s context :
  quiet_logger t ->
  (forall q, exists e, out (attempt t s context q) = Throw e) ->
  forall n q,
    let r := retry_loop t s context (S n) q in
    (exists e q',
        out (attempt t s context q') = Throw e
        /\ errors_reported (evs r) = reported t s context e
        /\ (quiet_onError t -> out r = Throw e))
    /\ (exists e, out r = Throw e)
    /\ attempts_made (evs r)
       = with_waits (invocations_when_failing s (S n))
           (EvExecute (name s) context) (pause_of s)
    /\ (forall f e,
          onError (stepEvents t) = Some f ->
          (forall e0 w', snd (f (name s) context e0 w') = Throw e) ->
          out r = Throw e)
    /\ In (EvExecute (name s) context) (evs r).
Proof.
  intros Hq Hfail. induction n as [|n IH]; intros q; cbv zeta.
  - destruct (Hfail q) as [e E].
    rewrite (retry_loop_gives_up _ _ _ _ _ _ E (or_introl eq_refl)).
    cbv zeta. cbn [out st evs].
    destruct (report_failure_spec t s context e (st (attempt t s context q)) Hq)
      as (G1 & G2 & G3 & G4 & G5).
    split; [|split; [|split; [|split]]].
    + exists e, q. split; [exact E|]. split; [|exact G4].
      unfold errors_reported in *. rewrite filter_app, G1.
      fold (errors_reported (evs (attempt t s context q))).
      rewrite attempt_errors_reported. reflexivity.
    + exact G3.
    + unfold attempts_made in *. rewrite filter_app, G2.
      fold (attempts_made (evs (attempt t s context q))).
      rewrite attempt_attempts_made.
      unfold invocations_when_failing. destruct (truthy_delayMs s);
        reflexivity.
    + exact G5.
    + apply in_or_app. left. apply attempt_executes.
  - destruct (Hfail q) as [e E].
    destruct (truthy_delayMs s) as [ms|] eqn:Hms.
    + assert (Hn : 0 < S n) by lia.
      rewrite (retry_loop_retries _ _ _ _ _ _ _ Hq E Hn Hms).
      cbv zeta. cbn [out st evs].
      set (q2 := st (log _ _ _ _)).
      destruct (IH q2) as ((e' & q' & I1 & I2 & I3) & I4 & I5 & I6 & I7).
      split; [|split; [|split; [|split]]].
      * exists e', q'. split; [exact I1|]. split; [|exact I3].
        unfold errors_reported in *. rewrite !filter_app.
        fold (errors_reported (evs (attempt t s context q))).
        rewrite attempt_errors_reported.
        rewrite (log_filter is_onError) by reflexivity.
        cbn [filter is_onError app]. exact I2.
      * exact I4.
      * unfold attempts_made in *. rewrite !filter_app.
        fold (attempts_made (evs (attempt t s context q))).
        rewrite attempt_attempts_made.
        rewrite (log_filter is_attempt) by reflexivity.
        cbn [filter is_attempt app]. rewrite I5.
        unfold invocations_when_failing, pause_of. rewrite Hms.
        reflexivity.
      * exact I6.
      * apply in_or_app. left. apply attempt_executes.
    + rewrite (retry_loop_gives_up _ _ _ _ _ _ E (or_intror Hms)).
      cbv zeta. cbn [out st evs].
      destruct (report_failure_spec t s context e (st (attempt t s context q)) Hq)
        as (G1 & G2 & G3 & G4 & G5).
      split; [|split; [|split; [|split]]].
      * exists e, q. split; [exact E|]. split; [|exact G4].
        unfold errors_reported in *. rewrite filter_app, G1.
        fold (errors_reported (evs (attempt t s context q))).
        rewrite attempt_errors_reported. reflexivity.
      * exact G3.
      * unfold attempts_made in *. rewrite filter_app, G2.
        fold (attempts_made (evs (attempt t s context q))).
        rewrite attempt_attempts_made.
        unfold invocations_when_failing. rewrite Hms. reflexivity.
      * exact G5.
      * apply in_or_app. left. apply attempt_executes.
Qed.

(** ** One step *)

Lemma run_step_enters t s context q :
  quiet_logger t -> quiet_onStart t ->
  let l := log t ("Starting step: " ++ name s)%string (DContext context) q in
  let o := on_start t (name s) context (st l) in
  let r' := retry_loop t s context (Z.to_nat (initial_attempts s)) (st o) in
  run_step t s context q
  = {| st := st r'; evs := evs l ++ evs o ++ evs r'; out := out r' |}.
Proof.
  intros Hq Hs. cbv zeta. unfold run_step.
  rewrite (bind_Ret _ _ _ _ (log_out _ _ _ _ Hq)). cbn [out st evs].
  rewrite (bind_Ret _ _ _ _ (on_start_out _ _ _ _ Hs)). reflexivity.
Qed.

Lemma run_step_onStart_throws t s context q f e :
  quiet_logger t ->
  onStart (stepEvents t) = Some f ->
  (forall w', snd (f (name s) context w') = Throw e) ->
  out (run_step t s context q) = Throw e
  /\ attempts_made (evs (run_step t s context q)) = [].
Proof.
  intros Hq Hf Hthrow. unfold run_step.
  rewrite (bind_Ret _ _ _ _ (log_out _ _ _ _ Hq)). cbn [out st evs].
  set (q1 := st (log _ _ _ q)).
  assert (E : out (on_start t (name s) context q1) = Throw e).
  { unfold on_start. rewrite Hf. cbn. apply Hthrow. }
  rewrite (bind_Throw _ _ _ _ E). cbn [out st evs].
  split; [reflexivity|].
  unfold attempts_made. rewrite filter_app.
  rewrite (log_filter is_attempt) by reflexivity.
  unfold on_start. rewrite Hf. reflexivity.
Qed.

(** ** A run that fails at one of its steps *)

Lemma steps_loop_aborts t pre s post context q cx e :
  let p := steps_loop t pre context q in
  let f := run_step t s cx (st p) in
  out p = Ret cx ->
  out f = Throw e ->
  steps_loop t (pre ++ s :: post) context q
  = {| st := st f; evs := evs p ++ evs f; out := Throw e |}.
Proof.
  cbv zeta. intros Ep Ef. rewrite steps_loop_app.
  rewrite (bind_Ret _ _ _ _ Ep). cbn [steps_loop].
  rewrite (bind_Throw _ _ _ _ Ef). reflexivity.
Qed.

Lemma run_aborts t pre s post w cx e :
  let p := steps_loop t pre undefined {| world := w; contexts := [] |} in
  let f := run_step t s cx (st p) in
  quiet_logger t ->
  tasks t = pre ++ s :: post ->
  out p = Ret cx ->
  out f = Throw e ->
  let r := run_in undefined t w in
  out r = Throw e
  /\ contexts (st r) = contexts (st p)
  /\ compensations (evs r)
     = flat_map (entry_compensations t e) (rev (contexts (st r)))
  /\ exists rollback_calls, evs r = evs p ++ evs f ++ rollback_calls.
Proof.
  cbv zeta. intros Hq Ht Ep Ef.
  pose proof (steps_loop_aborts t pre s post undefined _ cx e Ep Ef) as Hfwd.
  rewrite <- Ht in Hfwd.
  assert (E : out (steps_loop t (tasks t) undefined
                     {| world := w; contexts := [] |}) = Throw e)
    by (rewrite Hfwd; reflexivity).
  destruct (run_Throw t _ e Hq E) as (R1 & R2 & R3).
  unfold run_in. rewrite Hfwd in R2, R3. cbn [st] in R2, R3.
  rewrite (run_step_Throw _ _ _ _ _ Ef) in R2, R3.
  repeat split.
  - exact R1.
  - exact R2.
  - rewrite R2. exact R3.
  - unfold run. rewrite (try_Throw _ _ _ _ E). cbn [evs].
    rewrite Hfwd. cbn [evs st]. rewrite <- app_assoc. eauto.
Qed.

(** [find] returns the first step of the name: when a step of [pre] has
    it, none of the steps after [pre] is looked at. *)
Lemma find_step_prefix (pre rest : list (@TransactionStep W Ctx Err)) n :
  In n (map name pre) ->
  exists d, find_step (pre ++ rest) n = Some d /\ In d pre /\ name d = n.
Proof.
  induction pre as [|s pre IH]; cbn [map In app]; [tauto|].
  intros H. unfold find_step in *. cbn [find].
  destruct (String.eqb (name s) n) eqn:E.
  - exists s. apply String.eqb_eq in E. auto.
  - destruct H as [H|H].
    + apply String.eqb_neq in E. contradiction.
    + destruct (IH H) as (d & H1 & H2 & H3). exists d. auto.
Qed.

(** A step whose action and step events return: the step returns the
    result of its one invocation of the action. *)
Lemma run_step_succeeds t s context q :
  quiet_logger t -> quiet_onStart t -> quiet_onSuccess t ->
  has_attempts s ->
  (forall cx w, exists result, snd (execute s cx w) = Ret result) ->
  exists result w',
    snd (execute s context w') = Ret result
    /\ out (run_step t s context q) = Ret result
    /\ observed (evs (run_step t s context q))
       = started t s context ++ succeeded t s context result
    /\ attempts_made (evs (run_step t s context q))
       = [EvExecute (name s) context]
    /\ errors_reported (evs (run_step t s context q)) = [].
Proof.
  intros Hq Hs Hok Ha Hact.
  rewrite (run_step_enters _ _ _ _ Hq Hs). cbv zeta.
  set (l := log _ _ _ q). set (o := on_start _ _ _ (st l)).
  destruct (Z.to_nat (initial_attempts s)) as [|n] eqn:En;
    [unfold has_attempts in Ha; lia|].
  destruct (Hact context (world (st o))) as [result He].
  destruct (attempt_Ret t s context (st o) result Hq Hok He) as (A1 & A2).
  rewrite (retry_loop_returns _ _ _ _ _ _ A1). cbn [out st evs].
  exists result, (world (st o)).
  split; [exact He|]. split; [exact A1|].
  assert (Fl : forall p, p (EvLog ("Starting step: " ++ name s)%string
                              (DContext context)) = false ->
                         filter p (evs l) = []).
  { intros p Hp. apply log_filter. exact Hp. }
  split; [|split].
  - unfold observed in *. rewrite !filter_app, Fl by reflexivity.
    rewrite A2. fold (observed (evs o)). unfold o.
    rewrite on_start_observed. reflexivity.
  - unfold attempts_made. rewrite !filter_app, Fl by reflexivity.
    fold (attempts_made (evs (attempt t s context (st o)))).
    rewrite attempt_attempts_made.
    rewrite filter_none; [reflexivity|].
    apply emits_on_start. reflexivity.
  - unfold errors_reported. rewrite !filter_app, Fl by reflexivity.
    fold (errors_reported (evs (attempt t s context (st o)))).
    rewrite attempt_errors_reported.
    rewrite filter_none; [reflexivity|].
    apply emits_on_start. reflexivity.
Qed.

(** A step each of whose attempts throws. *)
Lemma run_step_exhausts t s context q :
  quiet_logger t -> quiet_onStart t -> has_attempts s ->
  (forall q', exists e, out (attempt t s context q') = Throw e) ->
  let r := run_step t s context q in
  (exists e q',
      out (attempt t s context q') = Throw e
      /\ errors_reported (evs r) = reported t s context e
      /\ (quiet_onError t -> out r = Throw e))
  /\ (exists e, out r = Throw e)
  /\ attempts_made (evs r)
     = with_waits (invocations_when_failing s (Z.to_nat (initial_attempts s)))
         (EvExecute (name s) context) (pause_of s)
  /\ (forall f e,
        onError (stepEvents t) = Some f ->
        (forall e0 w', snd (f (name s) context e0 w') = Throw e) ->
        out r = Throw e)
  /\ In (EvExecute (name s) context) (evs r).
Proof.
  intros Hq Hs Ha Hfail. cbv zeta.
  rewrite (run_step_enters _ _ _ _ Hq Hs). cbv zeta.
  set (l := log _ _ _ q). set (o := on_start _ _ _ (st l)).
  destruct (Z.to_nat (initial_attempts s)) as [|n] eqn:En;
    [unfold has_attempts in Ha; lia|].
  destruct (retry_loop_exhausts t s context Hq Hfail n (st o))
    as ((e3 & q3 & L1 & L2 & L3) & L4 & L5 & L6 & L7).
  cbn [out st evs].
  assert (Fl : forall p, p (EvLog ("Starting step: " ++ name s)%string
                              (DContext context)) = false ->
                         filter p (evs l) = []).
  { intros p Hp. apply log_filter. exact Hp. }
  split; [|split; [|split; [|split]]].
  - exists e3, q3. split; [exact L1|]. split; [|exact L3].
    unfold errors_reported in *. rewrite !filter_app, Fl by reflexivity.
    rewrite L2. rewrite filter_none; [reflexivity|].
    apply emits_on_start. reflexivity.
  - exact L4.
  - unfold attempts_made in *. rewrite !filter_app, Fl by reflexivity.
    rewrite L5. rewrite filter_none; [reflexivity|].
    apply emits_on_start. reflexivity.
  - exact L6.
  - apply in_or_app. right. apply in_or_app. right. exact L7.
Qed.

(** A run that fails at the step after [pre]. *)
Lemma run_fails_at_step t pre failing post w cx e :
  let p := steps_loop t pre undefined {| world := w; contexts := [] |} in
  quiet_logger t ->
  tasks t = pre ++ failing :: post ->
  Forall has_attempts pre ->
  out p = Ret cx ->
  out (run_step t failing cx (st p)) = Throw e ->
  let r := run_in undefined t w in
  out r = Throw e
  /\ map step (contexts (st r)) = map name pre
  /\ compensations (evs r)
     = flat_map (entry_compensations t e) (rev (contexts (st r))).
Proof.
  cbv zeta. intros Hq Ht Hpre Ep Ef.
  destruct (run_aborts t pre failing post w cx e Hq Ht Ep Ef)
    as (R1 & R2 & R3 & _).
  repeat split; [exact R1 | | exact R3].
  rewrite R2. rewrite (steps_loop_names _ _ _ _ _ Hpre Ep). reflexivity.
Qed.

(** Entries that carry the names of [pre] are looked up in [pre]. *)
Lemma entries_looked_up_in_prefix
    (pre rest : list (@TransactionStep W Ctx Err))
    (l : list (@ContextEntry Ctx)) :
  map step l = map name pre ->
  Forall (fun c => exists d,
              find_step (pre ++ rest) (step c) = Some d /\ In d pre) l.
Proof.
  intros Hn. apply Forall_forall. intros c Hc.
  assert (Hin : In (step c) (map name pre)).
  { rewrite <- Hn. apply in_map. exact Hc. }
  destruct (find_step_prefix pre rest _ Hin) as (d & H1 & H2 & _).
  exists d. auto.
Qed.

(** Without a truthy [delayMs] the loop gives up at the first attempt
    that throws, however many attempts are left. *)
Lemma retry_without_delay t s context n q e :
  quiet_logger t ->
  truthy_delayMs s = None ->
  out (attempt t s context q) = Throw e ->
  let r := retry_loop t s context (S n) q in
  attempts_made (evs r) = [EvExecute (name s) context]
  /\ (exists e', out r = Throw e')
  /\ errors_reported (evs r) = reported t s context e.
Proof.
  intros Hq Hd E. cbv zeta.
  rewrite (retry_loop_gives_up _ _ _ _ _ _ E (or_intror Hd)).
  cbv zeta. cbn [out st evs].
  destruct (report_failure_spec t s context e (st (attempt t s context q)) Hq)
    as (G1 & G2 & G3 & _).
  split; [|split].
  - unfold attempts_made in *. rewrite filter_app, G2.
    fold (attempts_made (evs (attempt t s context q))).
    rewrite attempt_attempts_made. reflexivity.
  - exact G3.
  - unfold errors_reported in *. rewrite filter_app, G1.
    fold (errors_reported (evs (attempt t s context q))).
    rewrite attempt_errors_reported. reflexivity.
Qed.

(** ** The worlds of the rollback pass *)

Lemma logged_trans t w1 w2 w3 :
  logged t w1 w2 -> logged t w2 w3 -> logged t w1 w3.
Proof.
  intros H12 H23. induction H23 as [|f msg d w' Hf _ IH]; [exact H12|].
  apply logged_call; assumption.
Qed.

Lemma log_logged t msg d q : logged t (world q) (world (st (log t msg d q))).
Proof.
  unfold log. destruct (logger t) as [f|] eqn:E; cbn.
  - apply logged_call; [exact E | apply logged_none].
  - apply logged_none.
Qed.

(** Without a logger the world stays where it is. *)
Lemma logged_without_logger t w w' : logger t = None -> logged t w w' -> w' = w.
Proof. intros Hn H. destruct H as [|f msg d w' Hf _]; congruence. Qed.

(** A compensation called under [try]: it is applied, in a world reached
    by the logger, and only the logger is called after it. *)
Lemma guarded_compensation_world
    t msg d ev (f : Call unit) msg' warning q :
  quiet_logger t ->
  let r := try_catch
             (bind (log t msg d) (fun _ => call ev f))
             (fun revertErr =>
                bind (log t msg' (DRevertErr revertErr))
                  (fun _ => emit (EvWarn warning revertErr))) q in
  exists w1, logged t (world q) w1 /\ logged t (fst (f w1)) (world (st r)).
Proof.
  intros Hq. cbv zeta. exists (world (st (log t msg d q))).
  split; [apply log_logged|].
  unfold try_catch, bind. cbv zeta.
  rewrite (log_out _ _ _ _ Hq). cbn [out st evs call world].
  destruct (f (world (st (log t msg d q)))) as [w' [[]|revertErr]];
    cbn [fst snd out st evs world].
  - apply logged_none.
  - rewrite (log_out _ _ _ _ Hq). cbn [out st evs emit].
    apply (log_logged t msg' (DRevertErr revertErr)
             {| world := w'; contexts := contexts (st (log t msg d q)) |}).
Qed.

Lemma step_rollback_world t error c q :
  quiet_logger t ->
  exists w1 w2,
    logged t (world q) w1
    /\ applied (step_rollback_of t c) c error w1 w2
    /\ logged t w2 (world (st (step_rollback t error c q))).
Proof.
  intros Hq. unfold step_rollback, step_rollback_of.
  destruct (find_step (tasks t) (step c)) as [stepDef|].
  2:{ exists (world q), (world q). cbn. repeat split; apply logged_none. }
  destruct (rollback stepDef) as [rb|].
  2:{ exists (world q), (world q). cbn. repeat split; apply logged_none. }
  destruct (guarded_compensation_world t
              ("Executing step-specific rollback for " ++ step c)%string
              (DCtx (ctx c)) (EvRollback (step c) (ctx c) error)
              (rb (ctx c) error)
              ("Step-specific rollback failed for " ++ step c)%string
              ("Step-specific rollback failed for "
               ++ dquote ++ step c ++ dquote ++ ":")%string q Hq)
    as (w1 & H1 & H2).
  exists w1, (fst (rb (ctx c) error w1)). cbn. auto.
Qed.

Lemma global_rollback_world t error c q :
  quiet_logger t ->
  exists w1 w2,
    logged t (world q) w1
    /\ applied (globalRollback t) c error w1 w2
    /\ logged t w2 (world (st (global_rollback t error c q))).
Proof.
  intros Hq. unfold global_rollback.
  destruct (globalRollback t) as [g|].
  2:{ exists (world q), (world q). cbn. repeat split; apply logged_none. }
  destruct (guarded_compensation_world t
              ("Executing global rollback for " ++ step c)%string
              (DCtx (ctx c)) (EvGlobalRollback (ctx c) error)
              (g (ctx c) error)
              ("Global rollback failed for " ++ step c)%string
              ("Global rollback failed for "
               ++ dquote ++ step c ++ dquote ++ ":")%string q Hq)
    as (w1 & H1 & H2).
  exists w1, (fst (g (ctx c) error w1)). cbn. auto.
Qed.

(** One rollback iteration applies the rollback of the step and then the
    global rollback, both on the context of the entry and on [error]. *)
Lemma rollback_entry_world t error c q :
  quiet_logger t ->
  entry_unwound t error c (world q) (world (st (rollback_entry t error c q))).
Proof.
  intros Hq. unfold rollback_entry.
  destruct (step_rollback_spec t error c q Hq) as (H1 & _ & _).
  rewrite (bind_Ret _ _ _ _ H1). cbn [out st evs].
  destruct (step_rollback_world t error c q Hq) as (w1 & w2 & S1 & S2 & S3).
  destruct (global_rollback_world t error c
              (st (step_rollback t error c q)) Hq)
    as (w3 & w4 & G1 & G2 & G3).
  exists w1, w2, w3, w4. repeat split; try assumption.
  apply (logged_trans _ _ _ _ S3 G1).
Qed.

Lemma rollback_loop_world t error l :
  forall q,
    quiet_logger t ->
    unwound t error l (world q) (world (st (rollback_loop t error l q))).
Proof.
  induction l as [|c l IH]; intros q Hq; cbn [rollback_loop unwound].
  - reflexivity.
  - destruct (rollback_entry_spec t error c q Hq) as (H1 & _ & _).
    rewrite (bind_Ret _ _ _ _ H1). cbn [out st evs].
    exists (world (st (rollback_entry t error c q))).
    split; [apply rollback_entry_world; exact Hq | apply IH; exact Hq].
Qed.

Lemma on_failure_world t error q :
  quiet_logger t ->
  exists w0,
    logged t (world q) w0
    /\ unwound t error (rev (contexts q)) w0
         (world (st (on_failure t error q))).
Proof.
  intros Hq. unfold on_failure.
  rewrite (bind_Ret _ _ _ _ (log_out _ _ _ _ Hq)). cbn [out st evs].
  set (q1 := st (log _ _ _ q)).
  assert (E1 : contexts q1 = contexts q) by apply log_contexts.
  destruct (rollback_loop_spec t error (rev (contexts q1)) q1 Hq)
    as (R1 & _ & _).
  pose proof (rollback_loop_world t error (rev (contexts q1)) q1 Hq) as Hw.
  change (rollback_loop t error (rev (contexts q1)) q1)
    with (rollback_all t error q1) in *.
  rewrite (bind_Ret _ _ _ _ R1). cbn [out st evs throw].
  exists (world q1). split; [apply log_logged|].
  rewrite <- E1. exact Hw.
Qed.

(** [find] on a list whose first step of the name is [d]. *)
Lemma find_step_first (l1 l2 : list (@TransactionStep W Ctx Err)) d n :
  name d = n ->
  Forall (fun d' => name d' <> n) l1 ->
  find_step (l1 ++ d :: l2) n = Some d.
Proof.
  intros Hd Hl1. unfold find_step.
  induction l1 as [|d' l1 IH]; cbn [find app].
  - rewrite Hd, String.eqb_refl. reflexivity.
  - inversion Hl1 as [|? ? Hd' Hl1']; subst.
    apply String.eqb_neq in Hd'. rewrite Hd'. apply IH. exact Hl1'.
Qed.

(** ** The worlds of a step that succeeds at its first attempt *)

Lemma returned_world_Some (wo : W * outcome Err unit) w' :
  returned_world wo = Some w' -> snd wo = Ret tt /\ fst wo = w'.
Proof.
  unfold returned_world. destruct (snd wo) as [[]|e]; [|discriminate].
  intros H. injection H as <-. auto.
Qed.

Lemma log_world_Some t msg d q w' :
  log_world t msg d (world q) = Some w' ->
  out (log t msg d q) = Ret tt /\ world (st (log t msg d q)) = w'.
Proof.
  unfold log_world, log. destruct (logger t) as [f|]; cbn.
  - apply returned_world_Some.
  - intros H. injection H as <-. auto.
Qed.

Lemma start_world_Some t n cx q w' :
  start_world t n cx (world q) = Some w' ->
  out (on_start t n cx q) = Ret tt /\ world (st (on_start t n cx q)) = w'.
Proof.
  unfold start_world, on_start. destruct (onStart (stepEvents t)) as [f|]; cbn.
  - apply returned_world_Some.
  - intros H. injection H as <-. auto.
Qed.

Lemma success_world_Some t n cx result q w' :
  success_world t n cx result (world q) = Some w' ->
  out (on_success t n cx result q) = Ret tt
  /\ world (st (on_success t n cx result q)) = w'.
Proof.
  unfold success_world, on_success.
  destruct (onSuccess (stepEvents t)) as [f|]; cbn.
  - apply returned_world_Some.
  - intros H. injection H as <-. auto.
Qed.

(** An attempt whose action returns, the logger and [onSuccess] returning
    after it. *)
Lemma attempt_straight t s context q w1 result w2 :
  execute s context (world q) = (w1, Ret result) ->
  after_action t s context result w1 = Some w2 ->
  out (attempt t s context q) = Ret result
  /\ world (st (attempt t s context q)) = w2
  /\ observed (evs (attempt t s context q)) = succeeded t s context result.
Proof.
  intros He Ha. unfold attempt.
  assert (E : out (call (EvExecute (name s) context) (execute s context) q)
              = Ret result) by (cbn; rewrite He; reflexivity).
  rewrite (bind_Ret _ _ _ _ E). cbn [out st evs].
  set (q1 := st (call _ _ q)).
  assert (W1 : world q1 = w1) by (cbn; rewrite He; reflexivity).
  unfold after_action in Ha.
  destruct (log_world t ("Step " ++ name s ++ " succeeded")%string
              (DResult result) w1) as [w1'|] eqn:El; [|discriminate].
  rewrite <- W1 in El. destruct (log_world_Some _ _ _ _ _ El) as (L1 & L2).
  rewrite (bind_Ret _ _ _ _ L1). cbn [out st evs].
  set (q2 := st (log _ _ _ q1)) in *.
  rewrite <- L2 in Ha. destruct (success_world_Some _ _ _ _ _ _ Ha) as (S1 & S2).
  rewrite (bind_Ret _ _ _ _ S1). cbn [out st evs].
  split; [reflexivity|]. split; [exact S2|].
  unfold observed. rewrite !filter_app.
  rewrite (log_filter is_observer) by reflexivity.
  fold (observed (evs (on_success t (name s) context result q2))).
  rewrite on_success_observed. cbn. apply app_nil_r.
Qed.

(** A step whose calls all return at the first attempt. *)
Lemma run_step_straight t s context q w0 w1 result w2 :
  has_attempts s ->
  before_action t s context (world q) = Some w0 ->
  execute s context w0 = (w1, Ret result) ->
  after_action t s context result w1 = Some w2 ->
  let r := run_step t s context q in
  out r = Ret result
  /\ world (st r) = w2
  /\ observed (evs r) = started t s context ++ succeeded t s context result
  /\ attempts_made (evs r) = [EvExecute (name s) context].
Proof.
  intros Hatt Hb He Ha. cbv zeta. unfold run_step.
  unfold before_action in Hb.
  destruct (log_world t ("Starting step: " ++ name s)%string
              (DContext context) (world q)) as [w'|] eqn:El; [|discriminate].
  destruct (log_world_Some _ _ _ _ _ El) as (L1 & L2).
  rewrite (bind_Ret _ _ _ _ L1). cbn [out st evs].
  set (l := log _ _ _ q) in *.
  rewrite <- L2 in Hb. destruct (start_world_Some _ _ _ _ _ Hb) as (S1 & S2).
  rewrite (bind_Ret _ _ _ _ S1). cbn [out st evs].
  set (o := on_start _ _ _ (st l)) in *.
  destruct (Z.to_nat (initial_attempts s)) as [|n] eqn:En;
    [unfold has_attempts in Hatt; lia|].
  rewrite <- S2 in He.
  destruct (attempt_straight t s context (st o) w1 result w2 He Ha)
    as (A1 & A2 & A3).
  rewrite (retry_loop_returns _ _ _ _ _ _ A1).
  split; [exact A1|]. split; [exact A2|].
  assert (Fl : forall p, p (EvLog ("Starting step: " ++ name s)%string
                              (DContext context)) = false ->
                         filter p (evs l) = []).
  { intros p Hp. apply log_filter. exact Hp. }
  split.
  - unfold observed in *. rewrite !filter_app, Fl by reflexivity.
    rewrite A3. fold (observed (evs o)). unfold o.
    rewrite on_start_observed. reflexivity.
  - unfold attempts_made. rewrite !filter_app, Fl by reflexivity.
    fold (attempts_made (evs (attempt t s context (st o)))).
    rewrite attempt_attempts_made.
    rewrite filter_none; [reflexivity|].
    apply emits_on_start. reflexivity.
Qed.

(** * The claims *)

(** C1. In a run in which a step fails terminally after the steps before
    it have succeeded, the compensations are invoked for the entries of
    the successful steps only, the last one first; the failed step has no
    entry in [contexts], and every step definition whose rollback is looked
    up is one of the successful steps, not the failed one. *)
Theorem rollback_reverse_order_of_successful_steps
    t pre failing post w cx e :
  let p := steps_loop t pre undefined {| world := w; contexts := [] |} in
  quiet_logger t ->
  tasks t = pre ++ failing :: post ->
  Forall has_attempts pre ->
  out p = Ret cx ->
  out (run_step t failing cx (st p)) = Throw e ->
  let r := run_in undefined t w in
  out r = Throw e
  /\ map step (contexts (st r)) = map name pre
  /\ compensations (evs r)
     = flat_map (entry_compensations t e) (rev (contexts (st r)))
  /\ Forall (fun c => exists d,
                find_step (tasks t) (step c) = Some d /\ In d pre)
       (contexts (st r)).
Proof.
  cbv zeta. intros Hq Ht Hpre Ep Ef.
  destruct (run_fails_at_step t pre failing post w cx e Hq Ht Hpre Ep Ef)
    as (R1 & R2 & R3).
  repeat split; [exact R1 | exact R2 | exact R3 |].
  rewrite Ht. apply entries_looked_up_in_prefix. exact R2.
Qed.

(** C2. A run fails with an error exactly when its forward pass threw that
    error; then, whatever the compensations do (return or throw), the
    compensations of every entry of [contexts] are invoked, the last entry
    first, and the error of [run] is the error of the forward pass. *)
Theorem caller_sees_triggering_error t w :
  quiet_logger t ->
  let fwd := steps_loop t (tasks t) undefined
               {| world := w; contexts := [] |} in
  let r := run_in undefined t w in
  (forall e, out r = Throw e <-> out fwd = Throw e)
  /\ (forall e, out fwd = Throw e ->
        compensations (evs r)
        = flat_map (entry_compensations t e) (rev (contexts (st fwd)))).
Proof.
  intros Hq. cbv zeta. unfold run_in. split.
  - intros e. split; intros H.
    + destruct (out (steps_loop t (tasks t) undefined
                       {| world := w; contexts := [] |})) as [a|e'] eqn:E.
      * rewrite (run_Ret _ _ _ E) in H. congruence.
      * destruct (run_Throw t _ e' Hq E) as (R1 & _). congruence.
    + destruct (run_Throw t _ e Hq H) as (R1 & _). exact R1.
  - intros e H. destruct (run_Throw t _ e Hq H) as (_ & _ & R3). exact R3.
Qed.


(** C5. For an entry of [contexts], when [d] is the first step of the
    entry's name: the rollback of [d], if [d] has one, is called on the
    entry's context and on the error that triggered the rollback, and
    then the global rollback, if it is set, is called on the same context
    and error, whether the first one returned or threw; between and around
    these two calls only the logger is called.  The rollback pass does so
    for every entry, the last one first. *)
Theorem step_then_global_compensation t error c q l1 d l2 :
  quiet_logger t ->
  tasks t = l1 ++ d :: l2 ->
  name d = step c ->
  Forall (fun d' => name d' <> step c) l1 ->
  let r := rollback_entry t error c q in
  out r = Ret tt
  /\ compensations (evs r)
     = match rollback d with
       | Some _ => [EvRollback (step c) (ctx c) error]
       | None => []
       end
       ++ match globalRollback t with
          | Some _ => [EvGlobalRollback (ctx c) error]
          | None => []
          end
  /\ (exists w1 w2 w3 w4,
        logged t (world q) w1
        /\ applied (rollback d) c error w1 w2
        /\ logged t w2 w3
        /\ applied (globalRollback t) c error w3 w4
        /\ logged t w4 (world (st r)))
  /\ compensations (evs (on_failure t error q))
     = flat_map (entry_compensations t error) (rev (contexts q))
  /\ (exists w0,
        logged t (world q) w0
        /\ unwound t error (rev (contexts q)) w0
             (world (st (on_failure t error q)))).
Proof.
  intros Hq Ht Hd Hl1. cbv zeta.
  destruct (rollback_entry_spec t error c q Hq) as (H1 & _ & H3).
  destruct (on_failure_spec t error q Hq) as (_ & _ & F3).
  assert (Hfind : find_step (tasks t) (step c) = Some d)
    by (rewrite Ht; apply find_step_first; assumption).
  split; [exact H1|]. split; [|split; [|split; [exact F3|]]].
  - rewrite H3. unfold entry_compensations. rewrite Hfind. reflexivity.
  - pose proof (rollback_entry_world t error c q Hq) as Hw.
    unfold entry_unwound, step_rollback_of in Hw. rewrite Hfind in Hw.
    exact Hw.
  - apply on_failure_world. exact Hq.
Qed.

(** C7. Three steps [A], [B], [C] whose actions succeed in the run (the
    logger and the step events returning when they are called): [onStart]
    is called with [A] and [undefined], the action of [A] returns [a],
    [onSuccess] is called with [A], [undefined] and [a]; the same for [B]
    on [a], returning [b], and for [C] on [b], returning [c]; each call is
    made in the world the one before has left, and [run] returns [c], what
    the action of [C] returned on what the action of [B] returned on what
    the action of [A] returned on [undefined]. *)
Theorem three_steps_succeed_in_order
    t A B C w wa wa' a w1 wb wb' b w2 wc wc' c w3 :
  tasks t = [A; B; C] ->
  Forall has_attempts [A; B; C] ->
  before_action t A undefined w = Some wa ->
  execute A undefined wa = (wa', Ret a) ->
  after_action t A undefined a wa' = Some w1 ->
  before_action t B a w1 = Some wb ->
  execute B a wb = (wb', Ret b) ->
  after_action t B a b wb' = Some w2 ->
  before_action t C b w2 = Some wc ->
  execute C b wc = (wc', Ret c) ->
  after_action t C b c wc' = Some w3 ->
  let r := run_in undefined t w in
  out r = Ret c
  /\ world (st r) = w3
  /\ observed (evs r)
     = started t A undefined ++ succeeded t A undefined a
       ++ started t B a ++ succeeded t B a b
       ++ started t C b ++ succeeded t C b c
  /\ attempts_made (evs r)
     = [EvExecute (name A) undefined; EvExecute (name B) a;
        EvExecute (name C) b].
Proof.
  intros Ht Hatt HbA HeA HaA HbB HeB HaB HbC HeC HaC. cbv zeta.
  inversion Hatt as [|? ? HA Hatt1]; subst.
  inversion Hatt1 as [|? ? HB Hatt2]; subst.
  inversion Hatt2 as [|? ? HC _]; subst.
  set (q0 := {| world := w; contexts := @nil (@ContextEntry Ctx) |}).
  destruct (run_step_straight t A undefined q0 wa wa' a w1 HA HbA HeA HaA)
    as (A1 & A2 & A3 & A4).
  set (qa := st (run_step t A undefined q0)) in *.
  rewrite <- A2 in HbB.
  destruct (run_step_straight t B a qa wb wb' b w2 HB HbB HeB HaB)
    as (B1 & B2 & B3 & B4).
  set (qb := st (run_step t B a qa)) in *.
  rewrite <- B2 in HbC.
  destruct (run_step_straight t C b qb wc wc' c w3 HC HbC HeC HaC)
    as (C1 & C2 & C3 & C4).
  assert (E : steps_loop t [A; B; C] undefined q0
              = {| st := st (run_step t C b qb);
                   evs := evs (run_step t A undefined q0)
                          ++ evs (run_step t B a qa)
                          ++ evs (run_step t C b qb) ++ [];
                   out := Ret c |}).
  { cbn [steps_loop].
    rewrite (bind_Ret _ _ _ _ A1). cbn [out st evs]. fold qa.
    rewrite (bind_Ret _ _ _ _ B1). cbn [out st evs]. fold qb.
    rewrite (bind_Ret _ _ _ _ C1). cbn [out st evs]. reflexivity. }
  unfold run_in. fold q0. rewrite run_Ret with (result := c);
    rewrite Ht, E; [|reflexivity].
  cbn [out evs st]. split; [reflexivity|]. split; [exact C2|]. split.
  - unfold observed in *. rewrite !filter_app, A3, B3, C3. cbn [filter].
    rewrite app_nil_r, <- !app_assoc. reflexivity.
  - unfold attempts_made in *. rewrite !filter_app, A4, B4, C4. reflexivity.
Qed.



(** * Further properties of [run] *)

(** ** What the rollback pass calls and keeps *)

Lemma rollback_entry_keeps t error c : keeps (rollback_entry t error c).
Proof.
  unfold rollback_entry, step_rollback, global_rollback.
  apply keeps_bind.
  - destruct (find_step _ _) as [d|]; [|auto with txn].
    destruct (rollback d); auto 10 with txn.
  - intros _. destruct (globalRollback t); auto 10 with txn.
Qed.

Lemma rollback_loop_keeps t error l : keeps (rollback_loop t error l).
Proof.
  induction l as [|c l IH]; cbn [rollback_loop]; [auto with txn|].
  apply keeps_bind; [apply rollback_entry_keeps | intros _; exact IH].
Qed.

Lemma on_failure_keeps t error : keeps (on_failure t error).
Proof.
  unfold on_failure. apply keeps_bind; [auto with txn|]. intros _.
  apply keeps_bind; [|auto with txn].
  intros q. unfold rollback_all. apply rollback_loop_keeps.
Qed.

(** The rollback pass makes no call but of the logger, the rollbacks and
    [console.warn]. *)
Section RollbackCalls.

Variable p : @Event Ctx Err -> bool.
Hypothesis p_log : forall msg d, p (EvLog msg d) = false.
Hypothesis p_rollback : forall n c e, p (EvRollback n c e) = false.
Hypothesis p_global : forall c e, p (EvGlobalRollback c e) = false.
Hypothesis p_warn : forall msg e, p (EvWarn msg e) = false.

Lemma rollback_entry_calls t error c :
  emits (fun ev => p ev = false) (rollback_entry t error c).
Proof.
  unfold rollback_entry, step_rollback, global_rollback.
  apply emits_bind.
  - destruct (find_step _ _) as [d|]; [|auto with txn].
    destruct (rollback d); auto 10 with txn.
  - intros _. destruct (globalRollback t); auto 10 with txn.
Qed.

Lemma rollback_loop_calls t error l :
  emits (fun ev => p ev = false) (rollback_loop t error l).
Proof.
  induction l as [|c l IH]; cbn [rollback_loop]; [auto with txn|].
  apply emits_bind; [apply rollback_entry_calls | intros _; exact IH].
Qed.

Lemma on_failure_calls t error :
  emits (fun ev => p ev = false) (on_failure t error).
Proof.
  unfold on_failure. apply emits_bind; [auto with txn|]. intros _.
  apply emits_bind; [|auto with txn].
  intros q. unfold rollback_all. apply rollback_loop_calls.
Qed.

Lemma run_calls t q :
  filter p (evs (run undefined t q))
  = filter p (evs (steps_loop t (tasks t) undefined q)).
Proof.
  unfold run, try_catch. cbv zeta.
  destruct (out (steps_loop t (tasks t) undefined q)) as [a|e];
    [reflexivity|].
  cbn [evs]. rewrite filter_app.
  rewrite (filter_none p (evs (on_failure t e _))); [apply app_nil_r|].
  apply on_failure_calls.
Qed.

End RollbackCalls.

(** X1. A transaction without steps: [run] returns [undefined] and calls
    nothing, neither the logger nor a step event nor a rollback. *)
Theorem run_without_steps t w :
  tasks t = [] ->
  run_in undefined t w
  = {| st := {| world := w; contexts := [] |};
       evs := [];
       out := Ret undefined |}.
Proof. intros Ht. unfold run_in, run. rewrite Ht. reflexivity. Qed.

(** X3. A run that returns has invoked no rollback, step-specific or
    global, and has warned of nothing. *)
Theorem returning_run_never_compensates t w result :
  out (run_in undefined t w) = Ret result ->
  compensations (evs (run_in undefined t w)) = []
  /\ warnings (evs (run_in undefined t w)) = [].
Proof.
  unfold run_in. intros H.
  assert (E : exists r, out (steps_loop t (tasks t) undefined
                               {| world := w; contexts := [] |}) = Ret r).
  { unfold run, try_catch in H. cbv zeta in H.
    destruct (out (steps_loop t (tasks t) undefined _)) as [r|e] eqn:E;
      [eauto|].
    cbn [out] in H.
    assert (Hthrow : exists e', out (on_failure t e
                (st (steps_loop t (tasks t) undefined
                       {| world := w; contexts := [] |}))) = Throw e').
    { unfold on_failure, bind, throw. cbv zeta.
      destruct (out (log _ _ _ _)) as [[]|e1]; cbn [out st]; [|eauto].
      destruct (out (rollback_all _ _ _)) as [[]|e2]; cbn [out st]; eauto. }
    destruct Hthrow as [e' He']. congruence. }
  destruct E as [r E]. rewrite (run_Ret _ _ _ E). split.
  - apply steps_loop_compensations.
  - apply filter_none.
    assert (Hw : forall l context,
               emits (fun ev => is_warning ev = false)
                 (steps_loop t l context)).
    { induction l as [|s l IH]; intros context; cbn [steps_loop];
        [auto with txn|].
      apply emits_bind; [|intros; apply IH].
      unfold run_step. apply emits_bind; [auto with txn|]. intros _.
      apply emits_bind; [auto with txn|]. intros _.
      generalize (Z.to_nat (initial_attempts s)). intros n.
      induction n as [|n IHn]; cbn [retry_loop]; [auto with txn|].
      apply emits_try; [unfold attempt; auto 10 with txn|].
      intros e. destruct (0 <? n)%nat;
        [|unfold report_failure; auto 10 with txn].
      destruct (truthy_delayMs s);
        [|unfold report_failure; auto 10 with txn].
      auto 10 with txn. }
    apply Hw.
Qed.

(** X4. Once the forward pass is over, [run] invokes no action, waits for
    no delay and fires no step event: the invocations, waits and step
    events of a run are those of its forward pass. *)
Theorem rollback_pass_runs_no_step t w :
  let fwd := steps_loop t (tasks t) undefined
               {| world := w; contexts := [] |} in
  attempts_made (evs (run_in undefined t w)) = attempts_made (evs fwd)
  /\ observed (evs (run_in undefined t w)) = observed (evs fwd).
Proof.
  cbv zeta. unfold run_in, attempts_made, observed.
  split; apply run_calls; reflexivity.
Qed.

(** ** What the retry loop calls *)

Section AttemptCalls.

Variable p : @Event Ctx Err -> bool.
Hypothesis p_log : forall msg d, p (EvLog msg d) = false.
Hypothesis p_execute : forall n c, p (EvExecute n c) = false.
Hypothesis p_success : forall n c r, p (EvSuccess n c r) = false.
Hypothesis p_error : forall n c e, p (EvError n c e) = false.
Hypothesis p_wait : forall ms, p (EvWait ms) = false.

Lemma retry_loop_calls t s context n :
  emits (fun ev => p ev = false) (retry_loop t s context n).
Proof.
  induction n as [|n IH]; cbn [retry_loop]; [auto with txn|].
  apply emits_try; [unfold attempt; auto 10 with txn|].
  intros e. destruct (0 <? n)%nat;
    [|unfold report_failure; auto 10 with txn].
  destruct (truthy_delayMs s); [|unfold report_failure; auto 10 with txn].
  auto 10 with txn.
Qed.

End AttemptCalls.

Lemma report_failure_attempts t s context error q :
  attempts_made (evs (report_failure t s context error q)) = [].
Proof.
  apply filter_none.
  assert (H : emits (fun ev => is_attempt ev = false)
                (report_failure t s context error))
    by (unfold report_failure; auto 10 with txn).
  apply H.
Qed.

Lemma report_failure_errors t s context error q :
  errors_reported (evs (report_failure t s context error q)) = []
  \/ errors_reported (evs (report_failure t s context error q))
     = [EvError (name s) context error].
Proof.
  unfold report_failure, bind, errors_reported. cbv zeta.
  destruct (out (log _ _ _ q)) as [[]|e1]; cbn [out st evs].
  2:{ left. apply log_filter. reflexivity. }
  rewrite filter_app. rewrite (log_filter is_onError) by reflexivity.
  cbn [app].
  assert (H : filter is_onError (evs (on_error t (name s) context error
                (st (log t ("Step " ++ name s ++ " failed")%string
                       (DError error) q))))
              = reported t s context error) by apply on_error_reported.
  destruct (out (on_error _ _ _ _ _)) as [[]|e2]; cbn [out st evs throw];
    rewrite ?app_nil_r, H; unfold reported;
    destruct (onError (stepEvents t)); auto.
Qed.

(** The invocations of the retry loop: at most as many as [attempts], one
    wait between one and the next, each on the context the step was given;
    a single one when no delay is configured. *)
Lemma retry_loop_shape t s context n :
  forall q,
  exists k,
    k <= n /\ (0 < n -> 0 < k)
    /\ (truthy_delayMs s = None -> k <= 1)
    /\ attempts_made (evs (retry_loop t s context n q))
       = with_waits k (EvExecute (name s) context) (pause_of s).
Proof.
  induction n as [|n IH]; intros q; cbn [retry_loop].
  - exists 0. cbn. repeat split; auto; lia.
  - unfold try_catch. cbv zeta.
    pose proof (attempt_attempts_made t s context q) as Ha.
    destruct (out (attempt t s context q)) as [result|e].
    + exists 1. rewrite Ha. repeat split; auto; lia.
    + cbn [evs]. unfold attempts_made in *. rewrite filter_app, Ha.
      destruct (0 <? n)%nat eqn:En.
      2:{ exists 1. fold (attempts_made (evs (report_failure t s context e
                             (st (attempt t s context q))))).
          rewrite report_failure_attempts. repeat split; auto; lia. }
      destruct (truthy_delayMs s) as [ms|] eqn:Hms.
      2:{ exists 1. fold (attempts_made (evs (report_failure t s context e
                             (st (attempt t s context q))))).
          rewrite report_failure_attempts. repeat split; auto; lia. }
      apply Nat.ltb_lt in En.
      unfold bind at 1. cbv zeta.
      destruct (out (log _ _ _ _)) as [[]|e1]; cbn [out st evs].
      2:{ exists 1. rewrite (log_filter is_attempt) by reflexivity.
          repeat split; auto; lia. }
      rewrite filter_app, (log_filter is_attempt) by reflexivity.
      unfold bind. cbn [emit out st evs app filter is_attempt].
      match goal with
      | |- context [retry_loop t s context n ?q'] =>
          destruct (IH q') as (k & K1 & K2 & _ & K4);
          set (r' := retry_loop t s context n q') in *
      end.
      exists (S k). repeat split; [lia | lia | discriminate |].
      destruct (out r'); cbn [evs];
        rewrite K4; specialize (K2 En); destruct k as [|k]; try lia;
        unfold pause_of; rewrite Hms; reflexivity.
Qed.

(** X2. A step whose [retry.attempts] is zero or less is skipped:
    [onStart] is fired, the action is never invoked, nothing is pushed on
    [contexts], and the step hands on the context it was given. *)
Theorem step_without_attempts_is_skipped t s context q r0 :
  quiet_logger t -> quiet_onStart t ->
  retry s = Some r0 ->
  (attempts r0 <= 0)%Z ->
  let r := run_step t s context q in
  out r = Ret context
  /\ contexts (st r) = contexts q
  /\ attempts_made (evs r) = []
  /\ observed (evs r) = started t s context.
Proof.
  intros Hq Hs Hr Ha. cbv zeta.
  rewrite (run_step_enters _ _ _ _ Hq Hs). cbv zeta.
  assert (Hn : Z.to_nat (initial_attempts s) = 0).
  { unfold initial_attempts. rewrite Hr. lia. }
  rewrite Hn. cbn [retry_loop ret out st evs].
  split; [reflexivity|]. split; [|split].
  - rewrite keeps_on_start. apply log_contexts.
  - rewrite app_nil_r. unfold attempts_made. rewrite filter_app.
    rewrite (log_filter is_attempt) by reflexivity.
    apply filter_none. apply emits_on_start. reflexivity.
  - rewrite app_nil_r. unfold observed. rewrite filter_app.
    rewrite (log_filter is_observer) by reflexivity.
    apply on_start_observed.
Qed.

(** X5. Whatever the callbacks do, a step whose [attempts] is an integer
    invokes its action at most [attempts] times (once when no delay is
    configured), always on the
    context the step was given, and waits the configured delay between one
    invocation and the next and at no other time. *)
Theorem invocations_bounded_by_attempts t s context q :
  exists k,
    k <= Z.to_nat (initial_attempts s)
    /\ (truthy_delayMs s = None -> k <= 1)
    /\ attempts_made (evs (run_step t s context q))
       = with_waits k (EvExecute (name s) context) (pause_of s).
Proof.
  unfold run_step, bind, attempts_made. cbv zeta.
  destruct (out (log _ _ _ q)) as [[]|e1]; cbn [out st evs].
  2:{ exists 0. rewrite (log_filter is_attempt) by reflexivity.
      repeat split; auto; lia. }
  rewrite filter_app, (log_filter is_attempt) by reflexivity. cbn [app].
  assert (Ho : forall q', filter is_attempt
                            (evs (on_start t (name s) context q')) = []).
  { intros q'. apply filter_none. apply emits_on_start. reflexivity. }
  destruct (out (on_start _ _ _ _)) as [[]|e2]; cbn [out st evs].
  2:{ exists 0. rewrite Ho. repeat split; auto; lia. }
  rewrite filter_app, Ho. cbn [app].
  match goal with
  | |- context [retry_loop t s context ?n ?q'] =>
      destruct (retry_loop_shape t s context n q') as (k & K1 & _ & K3 & K4)
  end.
  exists k. unfold attempts_made in K4. auto.
Qed.

(** X6. [onStart] is fired once for a step, before its first attempt,
    and not again when the action is retried: among the calls of [onStart]
    and the invocations and waits of the step, the one call of [onStart]
    comes first. *)
Theorem onStart_fires_once_per_step t s context q :
  quiet_logger t ->
  let r := run_step t s context q in
  starts_fired (evs r) = started t s context
  /\ filter (fun ev => is_onStart ev || is_attempt ev) (evs r)
     = started t s context ++ attempts_made (evs r).
Proof.
  intros Hq. cbv zeta. unfold run_step.
  rewrite (bind_Ret _ _ _ _ (log_out _ _ _ _ Hq)). cbn [out st evs].
  unfold starts_fired, attempts_made. rewrite !filter_app.
  rewrite (log_filter is_onStart) by reflexivity.
  rewrite (log_filter is_attempt) by reflexivity.
  rewrite (log_filter (fun ev => is_onStart ev || is_attempt ev))
    by reflexivity.
  cbn [app].
  assert (Ho : forall q', filter is_onStart
                            (evs (on_start t (name s) context q'))
                          = started t s context).
  { intros q'. unfold on_start, started.
    destruct (onStart (stepEvents t)); reflexivity. }
  assert (Ho' : forall q', filter (fun ev => is_onStart ev || is_attempt ev)
                             (evs (on_start t (name s) context q'))
                           = started t s context).
  { intros q'. unfold on_start, started.
    destruct (onStart (stepEvents t)); reflexivity. }
  assert (Ha : forall q', filter is_attempt
                            (evs (on_start t (name s) context q')) = []).
  { intros q'. apply filter_none. apply emits_on_start. reflexivity. }
  unfold bind. cbv zeta.
  destruct (out (on_start _ _ _ _)) as [[]|e2]; cbn [out st evs].
  - rewrite !filter_app, Ho, Ho', Ha. cbn [app].
    assert (Hr : forall n q',
               Forall (fun ev => is_onStart ev = false)
                 (evs (retry_loop t s context n q'))).
    { intros n q'. apply retry_loop_calls; reflexivity. }
    split.
    + rewrite filter_none; [apply app_nil_r | apply Hr].
    + f_equal. apply filter_ext_in. intros ev Hin.
      assert (Hev : is_onStart ev = false).
      { revert ev Hin. apply Forall_forall. apply Hr. }
      rewrite Hev. reflexivity.
  - rewrite Ho, Ho', Ha, app_nil_r. auto.
Qed.

(** X7. [onError] is invoked at most once for a step, on the context the
    step was given, and only when the step throws: a step that returns has
    not invoked it, however many of its attempts failed. *)
Theorem onError_at_most_once_per_step t s context q :
  let r := run_step t s context q in
  errors_reported (evs r) = []
  \/ exists e e',
       errors_reported (evs r) = [EvError (name s) context e]
       /\ out r = Throw e'.
Proof.
  cbv zeta.
  assert (Hloop : forall n q',
            let r := retry_loop t s context n q' in
            errors_reported (evs r) = []
            \/ exists e e',
                 errors_reported (evs r) = [EvError (name s) context e]
                 /\ out r = Throw e').
  { induction n as [|n IH]; intros q'; cbv zeta; cbn [retry_loop];
      [left; reflexivity|].
    unfold try_catch. cbv zeta.
    pose proof (attempt_errors_reported t s context q') as Ha.
    destruct (out (attempt t s context q')) as [result|e]; [left; exact Ha|].
    cbn [out st evs]. unfold errors_reported in *. rewrite filter_app, Ha.
    cbn [app].
    assert (Hgive : forall q1,
              filter is_onError (evs (report_failure t s context e q1)) = []
              \/ exists e0 e',
                   filter is_onError (evs (report_failure t s context e q1))
                   = [EvError (name s) context e0]
                   /\ out (report_failure t s context e q1) = Throw e').
    { intros q1. destruct (report_failure_errors t s context e q1) as [H|H];
        [left; exact H|].
      destruct (report_failure_throws t s context e q1) as [e' He'].
      right. exists e, e'. auto. }
    destruct (0 <? n)%nat; [|apply Hgive].
    destruct (truthy_delayMs s) as [ms|]; [|apply Hgive].
    unfold bind. cbv zeta. cbn [emit out st evs].
    destruct (out (log _ _ _ _)) as [[]|e1]; cbn [out st evs].
    2:{ left. apply log_filter. reflexivity. }
    rewrite filter_app, (log_filter is_onError) by reflexivity.
    cbn [app filter is_onError].
    match goal with
    | |- context [retry_loop t s context n ?q1] =>
        specialize (IH q1); cbv zeta in IH;
        set (r' := retry_loop t s context n q1) in *
    end.
    destruct (out r') as [res|e2]; cbn [out evs].
    - destruct IH as [IH|(e0 & e' & _ & IH)]; [left; exact IH | discriminate].
    - destruct IH as [IH|(e0 & e' & IH & _)]; [left; exact IH|].
      right. exists e0, e2. auto. }
  unfold run_step, bind, errors_reported. cbv zeta.
  destruct (out (log _ _ _ q)) as [[]|e1]; cbn [out st evs].
  2:{ left. apply log_filter. reflexivity. }
  rewrite filter_app, (log_filter is_onError) by reflexivity. cbn [app].
  assert (Ho : forall q', filter is_onError
                            (evs (on_start t (name s) context q')) = []).
  { intros q'. apply filter_none. apply emits_on_start. reflexivity. }
  destruct (out (on_start _ _ _ _)) as [[]|e2]; cbn [out st evs].
  2:{ left. apply Ho. }
  rewrite filter_app, Ho. cbn [app].
  match goal with
  | |- context [retry_loop t s context ?n ?q1] =>
      specialize (Hloop n q1); cbv zeta in Hloop
  end.
  unfold errors_reported in Hloop. exact Hloop.
Qed.

(** ** The entries of [contexts] *)

(** The forward pass pushes at most one entry for each step, under the
    name of that step. *)
Lemma steps_loop_entries t l :
  forall context q,
  exists new,
    contexts (st (steps_loop t l context q)) = contexts q ++ new
    /\ List.length new <= List.length l
    /\ Forall (fun c => In (step c) (map name l)) new.
Proof.
  induction l as [|s l IH]; intros context q; cbn [steps_loop].
  - exists []. cbn. rewrite app_nil_r. auto.
  - pose proof (run_step_history t s context q) as H. cbv zeta in H.
    unfold bind. cbv zeta.
    destruct (out (run_step t s context q)) as [c1|e]; cbn [out st].
    + destruct (IH c1 (st (run_step t s context q))) as (new & N1 & N2 & N3).
      assert (Hnew : Forall (fun c => In (step c) (map name (s :: l))) new).
      { eapply Forall_impl; [|exact N3]. intros c Hc. right. exact Hc. }
      destruct H as [H|(_ & H & _)].
      * exists ({| step := name s; ctx := context |} :: new).
        rewrite N1, H, <- app_assoc. cbn [app List.length].
        repeat split; [lia|].
        constructor; [left; reflexivity | exact Hnew].
      * exists new. rewrite N1, H. cbn [List.length]. auto.
    + exists []. rewrite H, app_nil_r. cbn [List.length]. repeat split; [lia|auto].
Qed.


(** ** A pipeline of actions that return *)

Lemma steps_loop_pipeline t f l :
  quiet_logger t -> quiet_onStart t -> quiet_onSuccess t ->
  Forall has_attempts l ->
  Forall (fun s => forall cx w, snd (execute s cx w) = Ret (f s cx)) l ->
  forall context q,
    let r := steps_loop t l context q in
    out r = Ret (fold_left (fun cx s => f s cx) l context)
    /\ contexts (st r) = contexts q ++ history f l context
    /\ attempts_made (evs r) = executions f l context
    /\ errors_reported (evs r) = [].
Proof.
  intros Hq Hs Hok Hatt Hact.
  induction l as [|s l IH]; intros context q; cbv zeta;
    cbn [steps_loop fold_left history executions].
  - cbn. rewrite app_nil_r. auto.
  - inversion Hatt as [|? ? Ha Hatt']; subst.
    inversion Hact as [|? ? He Hact']; subst.
    assert (He' : forall cx w, exists result,
               snd (execute s cx w) = Ret result) by eauto.
    destruct (run_step_succeeds t s context q Hq Hs Hok Ha He')
      as (result & w' & R1 & R2 & _ & R4 & R5).
    rewrite He in R1. injection R1 as <-.
    rewrite (bind_Ret _ _ _ _ R2). cbn [out st evs].
    destruct (IH Hatt' Hact' (f s context) (st (run_step t s context q)))
      as (I1 & I2 & I3 & I4).
    repeat split.
    + exact I1.
    + rewrite I2, (run_step_Ret _ _ _ _ _ Ha R2), <- app_assoc. reflexivity.
    + unfold attempts_made in *. rewrite filter_app, R4, I3. reflexivity.
    + unfold errors_reported in *. rewrite filter_app, R5, I4. reflexivity.
Qed.


(** ** Failures before any step has returned *)

(** X10. A logger that throws is not shielded: when it throws [e] at
    every call, a run of a transaction with at least one step throws [e]
    without invoking any action, step event or rollback. *)
Theorem throwing_logger_aborts_the_run t w lg e s rest :
  logger t = Some lg ->
  (forall msg d w', snd (lg msg d w') = Throw e) ->
  tasks t = s :: rest ->
  let r := run_in undefined t w in
  out r = Throw e
  /\ attempts_made (evs r) = []
  /\ observed (evs r) = []
  /\ compensations (evs r) = []
  /\ contexts (st r) = [].
Proof.
  intros Hl Hthrow Ht. cbv zeta.
  assert (Hlog : forall msg d q, out (log t msg d q) = Throw e).
  { intros msg d q. unfold log. rewrite Hl. cbn. apply Hthrow. }
  set (q0 := {| world := w; contexts := @nil (@ContextEntry Ctx) |}).
  set (l1 := log t ("Starting step: " ++ name s)%string
               (DContext undefined) q0).
  assert (Hfwd : steps_loop t (tasks t) undefined q0
                 = {| st := st l1; evs := evs l1; out := Throw e |}).
  { rewrite Ht. cbn [steps_loop]. unfold run_step.
    assert (E : out (bind (log t ("Starting step: " ++ name s)%string
                             (DContext undefined))
                       (fun _ => bind (on_start t (name s) undefined)
                          (fun _ => retry_loop t s undefined
                                      (Z.to_nat (initial_attempts s)))) q0)
                = Throw e).
    { rewrite (bind_Throw _ _ _ _ (Hlog _ _ q0)). reflexivity. }
    rewrite (bind_Throw _ _ _ _ E).
    rewrite (bind_Throw _ _ _ _ (Hlog _ _ q0)). reflexivity. }
  assert (E : out (steps_loop t (tasks t) undefined q0) = Throw e)
    by (rewrite Hfwd; reflexivity).
  unfold run_in, run. fold q0. rewrite (try_Throw _ _ _ _ E).
  rewrite Hfwd. cbn [out st evs]. unfold on_failure.
  rewrite (bind_Throw _ _ _ _ (Hlog _ _ (st l1))). cbn [out st evs].
  assert (Fl : forall p msg d q,
             p (EvLog msg d) = false -> filter p (evs (log t msg d q)) = [])
    by (intros; apply log_filter; assumption).
  unfold attempts_made, observed, compensations.
  rewrite !filter_app. unfold l1. rewrite !Fl by reflexivity.
  repeat split. rewrite !log_contexts. reflexivity.
Qed.

(** X11. When the first step fails, nothing is compensated: [contexts]
    is empty, so neither the rollback of the step nor the global rollback
    is invoked, and [run] throws the error of the step. *)
Theorem first_step_failure_compensates_nothing t s post w e :
  quiet_logger t ->
  tasks t = s :: post ->
  out (run_step t s undefined {| world := w; contexts := [] |}) = Throw e ->
  let r := run_in undefined t w in
  out r = Throw e
  /\ contexts (st r) = []
  /\ compensations (evs r) = [].
Proof.
  intros Hq Ht Ef. cbv zeta.
  destruct (run_aborts t [] s post w undefined e Hq Ht eq_refl Ef)
    as (R1 & R2 & R3 & _).
  cbn in R2. rewrite R2 in R3. cbn in R3. auto.
Qed.

(** ** The builder methods *)

(** X12. [steps(l)] is [step] called on each element of [l] in turn; a
    second [onStep] replaces the step events and the global rollback of the
    first, also by none; and [onStep] may come before or after the steps
    are added. *)
Theorem builder_methods_compose :
  (forall l t, Transaction_steps t l = fold_left Transaction_step l t)
  /\ (forall t events1 rb1 events2 rb2,
        Transaction_onStep (Transaction_onStep t events1 rb1) events2 rb2
        = Transaction_onStep t events2 rb2)
  /\ (forall t l events rb,
        Transaction_onStep (Transaction_steps t l) events rb
        = Transaction_steps (Transaction_onStep t events rb) l).
Proof.
  split; [|split; reflexivity].
  induction l as [|s l IH]; intros t; cbn [fold_left].
  - destruct t. unfold Transaction_steps. cbn. rewrite app_nil_r.
    reflexivity.
  - rewrite <- IH. unfold Transaction_steps, Transaction_step. cbn.
    rewrite <- app_assoc. reflexivity.
Qed.

(** ** Steps of one name *)

(** X14. A step that shares its name with an earlier step is never looked
    up by the rollback pass: for an entry of that name, also the one the
    later step has pushed, [find] returns one of the earlier steps, and the
    rollback iteration calls the rollback of that earlier step on the
    context of the entry, and then the global rollback. *)
Theorem shadowed_step_is_never_looked_up t l1 d l2 error c q :
  quiet_logger t ->
  tasks t = l1 ++ d :: l2 ->
  In (name d) (map name l1) ->
  step c = name d ->
  exists d0,
    find_step (tasks t) (step c) = Some d0
    /\ In d0 l1 /\ name d0 = name d
    /\ (let r := rollback_entry t error c q in
        compensations (evs r)
        = match rollback d0 with
          | Some _ => [EvRollback (step c) (ctx c) error]
          | None => []
          end
          ++ match globalRollback t with
             | Some _ => [EvGlobalRollback (ctx c) error]
             | None => []
             end
        /\ exists w1 w2 w3 w4,
             logged t (world q) w1
             /\ applied (rollback d0) c error w1 w2
             /\ logged t w2 w3
             /\ applied (globalRollback t) c error w3 w4
             /\ logged t w4 (world (st r))).
Proof.
  intros Hq Ht Hin Hc.
  destruct (find_step_prefix l1 (d :: l2) (name d) Hin) as (d0 & H1 & H2 & H3).
  assert (Hfind : find_step (tasks t) (step c) = Some d0)
    by (rewrite Hc, Ht; exact H1).
  exists d0. split; [exact Hfind|]. split; [exact H2|]. split; [exact H3|].
  cbv zeta. split.
  - destruct (rollback_entry_spec t error c q Hq) as (_ & _ & R3).
    rewrite R3. unfold entry_compensations. rewrite Hfind. reflexivity.
  - pose proof (rollback_entry_world t error c q Hq) as Hw.
    unfold entry_unwound, step_rollback_of in Hw. rewrite Hfind in Hw.
    exact Hw.
Qed.

End Facts.

(** * The claims on the example transactions *)

Section Examples.

Import Scenario.
Local Open Scope list_scope.

(** The run of [fetch_process_fail] falls under C1: [always_fail] has a
    rollback of its own, which writes no line. *)
Lemma rollback_reverse_order_witness :
  let r := run_in Undefined fetch_process_fail start in
  (out r = Throw E
   /\ map step (contexts (st r)) = ["fetch"; "process"]%string
   /\ compensations (evs r)
      = [EvRollback "process" (Obj 1) E; EvRollback "fetch" Undefined E]
   /\ Forall (fun c => exists d,
                 find_step (tasks fetch_process_fail) (step c) = Some d
                 /\ In d [fetch; process])
        (contexts (st r)))
  /\ lines (world (st r))
     = [("process"%string, Obj 1); ("fetch"%string, Undefined)].
Proof.
  split; [|reflexivity].
  apply (rollback_reverse_order_of_successful_steps Undefined
           fetch_process_fail [fetch; process] always_fail [] start (Obj 2) E).
  - exact I.
  - reflexivity.
  - repeat constructor; unfold has_attempts; cbn; lia.
  - reflexivity.
  - reflexivity.
Defined.

(** The run of [unsafe_rollback] falls under C2: the rollback of
    [process] throws, the rollback of [fetch] is invoked all the same and
    writes its line, and [run] throws the error of [always_fail]. *)
Lemma caller_sees_triggering_error_witness :
  let r := run_in Undefined unsafe_rollback start in
  out r = Throw E
  /\ compensations (evs r)
     = [EvRollback "process" (Obj 1) E; EvRollback "fetch" Undefined E]
  /\ lines (world (st r)) = [("fetch"%string, Undefined)].
Proof.
  assert (Hq : quiet_logger unsafe_rollback) by (intros msg d w; reflexivity).
  destruct (caller_sees_triggering_error Undefined unsafe_rollback start Hq)
    as [H1 H2].
  split; [|split].
  - apply H1. reflexivity.
  - apply (H2 E). reflexivity.
  - reflexivity.
Defined.


(** The entry of [process] in [with_global_rollback] falls under C5: the
    rollback of the step throws and the global rollback is called after
    it, on the same context and error, and writes its line; the rollback
    pass does so for both entries. *)
Lemma step_then_global_compensation_witness :
  let q := {| world := start;
              contexts := [{| step := "fetch"; ctx := Undefined |};
                           {| step := "process"; ctx := Obj 1 |}] |} in
  let r := rollback_entry with_global_rollback E
             {| step := "process"; ctx := Obj 1 |} q in
  (out r = Ret tt
   /\ compensations (evs r)
      = [EvRollback "process" (Obj 1) E; EvGlobalRollback (Obj 1) E]
   /\ compensations (evs (on_failure with_global_rollback E q))
      = [EvRollback "process" (Obj 1) E; EvGlobalRollback (Obj 1) E;
         EvRollback "fetch" Undefined E; EvGlobalRollback Undefined E])
  /\ world (st r) = write "global" (Obj 1) start
  /\ lines (world (st (on_failure with_global_rollback E q)))
     = [("global"%string, Obj 1); ("fetch"%string, Undefined);
        ("global"%string, Undefined)].
Proof.
  assert (Hfirst : Forall (fun d' : Step => name d' <> "process"%string)
                     [fetch])
    by (repeat constructor; discriminate).
  destruct (step_then_global_compensation with_global_rollback E
              {| step := "process"; ctx := Obj 1 |}
              {| world := start;
                 contexts := [{| step := "fetch"; ctx := Undefined |};
                              {| step := "process"; ctx := Obj 1 |}] |}
              [fetch] process_unsafe [always_fail] I eq_refl eq_refl Hfirst)
    as (H1 & H2 & H3 & H4 & _).
  split; [|split].
  - split; [exact H1|]. split; [exact H2 | exact H4].
  - destruct H3 as (w1 & w2 & w3 & w4 & L1 & A1 & L2 & A2 & L3).
    apply logged_without_logger in L1; [|reflexivity].
    apply logged_without_logger in L2; [|reflexivity].
    apply logged_without_logger in L3; [|reflexivity].
    cbn in A1, A2. rewrite L3, A2, L2, A1, L1. reflexivity.
  - reflexivity.
Defined.

(** The run of [fetch_process_bump] falls under C7: the step events write
    their lines in the order [fetch], [process], [bump], each [onSuccess]
    with the result of its step, and [run] returns [{ v: 3 }]. *)
Lemma three_steps_succeed_witness :
  let r := run_in Undefined Edge.fetch_process_bump start in
  out r = Ret (Obj 3)
  /\ lines (world (st r))
     = [("start fetch"%string, Undefined); ("success fetch"%string, Obj 1);
        ("start process"%string, Obj 1); ("success process"%string, Obj 2);
        ("start bump"%string, Obj 2); ("success bump"%string, Obj 3)]
  /\ observed (evs r)
     = [EvStart "fetch" Undefined; EvSuccess "fetch" Undefined (Obj 1);
        EvStart "process" (Obj 1); EvSuccess "process" (Obj 1) (Obj 2);
        EvStart "bump" (Obj 2); EvSuccess "bump" (Obj 2) (Obj 3)]
  /\ attempts_made (evs r)
     = [EvExecute "fetch" Undefined; EvExecute "process" (Obj 1);
        EvExecute "bump" (Obj 2)].
Proof.
  edestruct (three_steps_succeed_in_order Undefined Edge.fetch_process_bump
               fetch process bump start) as (H1 & H2 & H3 & H4).
  - reflexivity.
  - repeat constructor; unfold has_attempts; cbn; lia.
  - reflexivity.
  - reflexivity.
  - reflexivity.
  - reflexivity.
  - reflexivity.
  - reflexivity.
  - reflexivity.
  - reflexivity.
  - reflexivity.
  - split; [exact H1|]. split; [rewrite H2; reflexivity|].
    split; [exact H3 | exact H4].
Defined.

(** The run of [three_steps], evaluated. *)
Example three_steps_run :
  let r := run_in Undefined three_steps start in
  out r = Ret (Obj 3)
  /\ observed (evs r)
     = [EvStart "fetch" Undefined; EvSuccess "fetch" Undefined (Obj 1);
        EvStart "bump" (Obj 1); EvSuccess "bump" (Obj 1) (Obj 2);
        EvStart "bump" (Obj 2); EvSuccess "bump" (Obj 2) (Obj 3)].
Proof. split; reflexivity. Qed.

(** With two steps of one name, the rollback of the first is invoked for
    the entries of both. *)
Example same_name_first_match :
  let r := run_in Undefined same_name start in
  out r = Throw E
  /\ lines (world (st r)) = [("bump"%string, Obj 1); ("bump"%string, Undefined)].
Proof. split; reflexivity. Qed.

(** The global rollback is invoked after a step rollback that throws, and
    for each entry. *)
Example global_rollback_run :
  let r := run_in Undefined with_global_rollback start in
  out r = Throw E
  /\ lines (world (st r))
     = [("global"%string, Obj 1); ("fetch"%string, Undefined);
        ("global"%string, Undefined)].
Proof. split; reflexivity. Qed.

(** C6. Whatever a step pushes on [contexts] is the entry of its name
    with the context the step was given, not the result of its action; it
    pushes it when it returns (unless its retry budget made it skip the
    action) and pushes nothing when it throws.  In the scenario [fetch],
    [process], [always_fail]: the rollback of [process] receives [{ v: 1 }],
    the rollback of [fetch] receives [undefined], and [run] throws [E]. *)
Theorem history_holds_the_input_context :
  (forall (W Ctx Err : Type) (t : @Transaction W Ctx Err) s context q,
      let r := run_step t s context q in
      match out r with
      | Ret result =>
          contexts (st r)
          = contexts q ++ [{| step := name s; ctx := context |}]
          \/ ((initial_attempts s <= 0)%Z
              /\ contexts (st r) = contexts q /\ result = context)
      | Throw _ => contexts (st r) = contexts q
      end)
  /\ (let r := run_in Undefined fetch_process_fail start in
      out r = Throw E
      /\ contexts (st r) = [{| step := "fetch"; ctx := Undefined |};
                            {| step := "process"; ctx := Obj 1 |}]
      /\ compensations (evs r)
         = [EvRollback "process" (Obj 1) E; EvRollback "fetch" Undefined E]
      /\ lines (world (st r))
         = [("process"%string, Obj 1); ("fetch"%string, Undefined)]).
Proof.
  split.
  - intros W Ctx Err t s context q. apply run_step_history.
  - repeat split; reflexivity.
Qed.

(** C3, on the code.  The step [flaky] with
    [retry: { attempts: 3, delayMs: 0 }]: its action throws at the first
    invocation, two attempts are left, and the action is not invoked
    again: [run] throws the error of the first invocation. *)
Theorem no_retry_without_delay :
  let s := flaky {| attempts := 3; delayMs := 0 |} in
  let r := run_in Undefined no_delay start in
  initial_attempts s = 3%Z
  /\ truthy_delayMs s = None
  /\ evs r = [EvExecute "flaky" Undefined]
  /\ calls (world (st r)) = 1
  /\ out r = Throw E.
Proof. repeat split; reflexivity. Qed.

(** C9, on the code.  The step [flaky], whose action throws twice and
    returns at the third invocation, with
    [retry: { attempts: 3, delayMs: 0 }]: the action is invoked once,
    [onError] is invoked, and [run] throws without going on to [bump]. *)
Theorem retry_success_lost_without_delay :
  let r := run_in Undefined no_delay_then_bump start in
  evs r = [EvStart "flaky" Undefined; EvExecute "flaky" Undefined;
           EvError "flaky" Undefined E]
  /\ errors_reported (evs r) = [EvError "flaky" Undefined E]
  /\ contexts (st r) = []
  /\ out r = Throw E.
Proof. repeat split; reflexivity. Qed.

(** The same step with [delayMs: 10]: the third invocation returns, the
    next step runs on its result and [onError] is not invoked. *)
Example retry_success_with_delay :
  let r := run_in Undefined with_delay_then_bump start in
  evs r = [EvStart "flaky" Undefined;
           EvExecute "flaky" Undefined; EvWait 10;
           EvExecute "flaky" Undefined; EvWait 10;
           EvExecute "flaky" Undefined;
           EvSuccess "flaky" Undefined (Obj 3);
           EvStart "bump" (Obj 3); EvExecute "bump" (Obj 3);
           EvSuccess "bump" (Obj 3) (Obj 4)]
  /\ errors_reported (evs r) = []
  /\ out r = Ret (Obj 4).
Proof. repeat split; reflexivity. Qed.





(** * The further properties on the example transactions *)

Import Edge.

(** [empty] has a logger, step events and a global rollback, and no step. *)
Lemma run_without_steps_witness :
  run_in Undefined empty start
  = {| st := {| world := start; contexts := [] |};
       evs := [];
       out := Ret Undefined |}.
Proof. apply (run_without_steps Undefined empty start). reflexivity. Defined.

(** The step [bump_never] of [skipping]: [onStart] is fired and the action
    is not invoked; the run hands the result of [fetch] to the last step
    and ends with two entries. *)
Lemma step_without_attempts_witness :
  (let r := run_step skipping bump_never (Obj 1)
              {| world := start; contexts := [] |} in
   out r = Ret (Obj 1)
   /\ contexts (st r) = []
   /\ attempts_made (evs r) = []
   /\ observed (evs r) = [EvStart "bump" (Obj 1)])
  /\ (let r := run_in Undefined skipping start in
      out r = Ret (Obj 2)
      /\ contexts (st r) = [{| step := "fetch"; ctx := Undefined |};
                            {| step := "bump"; ctx := Obj 1 |}]).
Proof.
  split; [|split; reflexivity].
  apply (step_without_attempts_is_skipped skipping bump_never (Obj 1)
           {| world := start; contexts := [] |}
           {| attempts := 0; delayMs := 10 |}).
  - exact I.
  - intros n c w; reflexivity.
  - reflexivity.
  - cbn. lia.
Defined.

(** The run of [three_steps] returns. *)
Lemma returning_run_witness :
  compensations (evs (run_in Undefined three_steps start)) = []
  /\ warnings (evs (run_in Undefined three_steps start)) = [].
Proof.
  apply (returning_run_never_compensates Undefined three_steps start (Obj 3)).
  reflexivity.
Defined.

(** The step [flaky] of [flaky_logged] makes three attempts and fires
    [onStart] once, before the first: [onStart] writes one line. *)
Lemma onStart_fires_once_witness :
  let r := run_step flaky_logged (flaky {| attempts := 3; delayMs := 10 |})
             Undefined {| world := start; contexts := [] |} in
  (starts_fired (evs r) = [EvStart "flaky" Undefined]
   /\ filter (fun ev => is_onStart ev || is_attempt ev) (evs r)
      = [EvStart "flaky" Undefined;
         EvExecute "flaky" Undefined; EvWait 10;
         EvExecute "flaky" Undefined; EvWait 10;
         EvExecute "flaky" Undefined])
  /\ lines (world (st r))
     = [("start flaky"%string, Undefined); ("success flaky"%string, Obj 3)].
Proof.
  split; [|reflexivity].
  apply (onStart_fires_once_per_step flaky_logged
           (flaky {| attempts := 3; delayMs := 10 |}) Undefined
           {| world := start; contexts := [] |}).
  intros msg d w; reflexivity.
Defined.


(** The run of [logger_throws]. *)
Lemma throwing_logger_witness :
  let r := run_in Undefined logger_throws start in
  out r = Throw ObserverFailed
  /\ attempts_made (evs r) = []
  /\ observed (evs r) = []
  /\ compensations (evs r) = []
  /\ contexts (st r) = [].
Proof.
  apply (throwing_logger_aborts_the_run Undefined logger_throws start
           throwing_logger ObserverFailed fetch [bump]).
  - reflexivity.
  - intros msg d w'; reflexivity.
  - reflexivity.
Defined.

(** The run of [fails_at_once]: the global rollback is set and writes no
    line. *)
Lemma first_step_failure_witness :
  let r := run_in Undefined fails_at_once start in
  (out r = Throw E
   /\ contexts (st r) = []
   /\ compensations (evs r) = [])
  /\ lines (world (st r)) = [].
Proof.
  split; [|reflexivity].
  apply (first_step_failure_compensates_nothing Undefined fails_at_once
           always_fail [bump] start E).
  - exact I.
  - reflexivity.
  - reflexivity.
Defined.

(** The second step of [same_name]: its entry is compensated by the
    rollback of the first, which writes [bump] and not [bump again]. *)
Lemma shadowed_step_witness :
  (exists d0,
      find_step (tasks same_name) "bump" = Some d0
      /\ In d0 [bump] /\ name d0 = "bump"%string)
  /\ world (st (rollback_entry same_name E
                  {| step := "bump"; ctx := Obj 1 |}
                  {| world := start; contexts := [] |}))
     = write "bump" (Obj 1) start
  /\ lines (world (st (run_in Undefined same_name start)))
     = [("bump"%string, Obj 1); ("bump"%string, Undefined)].
Proof.
  destruct (shadowed_step_is_never_looked_up same_name [bump] bump_again
              [always_fail] E {| step := "bump"; ctx := Obj 1 |}
              {| world := start; contexts := [] |})
    as (d0 & H1 & H2 & H3 & _ & H5).
  - exact I.
  - reflexivity.
  - left. reflexivity.
  - reflexivity.
  - destruct H2 as [<-|[]]. split; [|split].
    + exists bump. split; [exact H1|]. split; [left; reflexivity|].
      reflexivity.
    + destruct H5 as (w1 & w2 & w3 & w4 & L1 & A1 & L2 & A2 & L3).
      apply logged_without_logger in L1; [|reflexivity].
      apply logged_without_logger in L2; [|reflexivity].
      apply logged_without_logger in L3; [|reflexivity].
      cbn in A1, A2. rewrite L3, A2, L2, A1, L1. reflexivity.
    + reflexivity.
Defined.

End Examples.

(** * The script of [src/example.ts] *)

Section ExampleScript.

Import Example.
Local Open Scope list_scope.

(** Lines printed one after the other. *)
Lemma fold_left_snoc {A} (l : list A) :
  forall w, fold_left (fun printed line => printed ++ [line]) l w = w ++ l.
Proof.
  induction l as [|x l IH]; intros w; cbn [fold_left].
  - symmetry. apply app_nil_r.
  - rewrite IH, <- app_assoc. reflexivity.
Qed.

(** X13. Whatever is on the console before, the script of [example.ts]
    prints the lines of the logger and of the step events for
    [user_query] and [user_update], fails at [step_3], reverts
    [user_update] and then [user_query], each followed by the global
    rollback, with the context the step was given and the message of
    [step_3], and ends on [console.error] with that error; it never prints
    [Transaction completed:]. *)
Theorem example_script_output (w : Console) :
  example w
  = w ++
    [(Log, [Text "Starting step: user_query"; Logged (DContext Undefined)]);
     (Log, [Text "Starting user_query"; Value Undefined]);
     (Log, [Text "Step user_query succeeded";
            Logged (DResult (User 123 "user_query"))]);
     (Log, [Text "Success user_query"; Value (User 123 "user_query")]);
     (Log, [Text "Starting step: user_update";
            Logged (DContext (User 123 "user_query"))]);
     (Log, [Text "Starting user_update"; Value (User 123 "user_query")]);
     (Log, [Text "Step user_update succeeded";
            Logged (DResult (User 123 "user_update"))]);
     (Log, [Text "Success user_update"; Value (User 123 "user_update")]);
     (Log, [Text "Starting step: step_3";
            Logged (DContext (User 123 "user_update"))]);
     (Log, [Text "Starting step_3"; Value (User 123 "user_update")]);
     (Log, [Text "Step step_3 failed";
            Logged (DError {| message := "Something failed in step 3" |})]);
     (Log, [Text "Error in step_3"; Text "Something failed in step 3"]);
     (Log, [Text "Transaction failed, initiating rollback";
            Logged (DError {| message := "Something failed in step 3" |})]);
     (Log, [Text "Executing step-specific rollback for user_update";
            Logged (DCtx (User 123 "user_query"))]);
     (Log, [Text "Reverting user_update: Something failed in step 3";
            Value (User 123 "user_query")]);
     (Log, [Text "Executing global rollback for user_update";
            Logged (DCtx (User 123 "user_query"))]);
     (Log, [Text "Global rollback"; Value (User 123 "user_query");
            Text "Something failed in step 3"]);
     (Log, [Text "Executing step-specific rollback for user_query";
            Logged (DCtx Undefined)]);
     (Log, [Text "Reverting user_query: Something failed in step 3";
            Value Undefined]);
     (Log, [Text "Executing global rollback for user_query";
            Logged (DCtx Undefined)]);
     (Log, [Text "Global rollback"; Value Undefined;
            Text "Something failed in step 3"]);
     (Err, [Text "Transaction failed:";
            Thrown {| message := "Something failed in step 3" |}])].
Proof.
  etransitivity; [|apply fold_left_snoc].
  vm_compute. reflexivity.
Qed.

End ExampleScript.
